(** * visual: image transforms and model helpers

    A shallow embedding of [visual/transforms.py] and
    [visual/models/utils.py].  Python objects that are mutated or shared
    (lists of angles, dictionaries of saved activations, transform objects,
    network modules) live in explicit stores indexed by references; the
    global generator of module [random] is a state threaded through every
    draw; exceptions are the left summand of a result.  The numeric kernels
    of the tensor library (interpolation, affine grids, grid sampling) and
    the C library's [cos] and [sin] are interfaces: the code under study only
    composes them. *)

From Stdlib Require Import ZArith Floats Ascii.
From stdpp Require Import base option gmap strings list.

Open Scope Z_scope.

(** ** Python values, exceptions and results *)

Module Py.

(** The exceptions the modelled code can raise. *)
Inductive exn :=
  | ValueError | TypeError | IndexError | KeyError | RuntimeError
  | RecursionError.

(** A computation either raises or returns. *)
Definition result (A : Type) : Type := exn + A.

Definition ok {A} (a : A) : result A := inr a.
Definition raise {A} (e : exn) : result A := inl e.

Definition rbind {A B} (r : result A) (k : A → result B) : result B :=
  match r with inl e => inl e | inr a => k a end.

(** Stateful computations that may raise: the state that was reached when
    the exception was raised is kept, as in Python. *)
Definition M (S A : Type) : Type := S → result A * S.

Definition ret {S A} (a : A) : M S A := λ s, (inr a, s).
Definition throw {S A} (e : exn) : M S A := λ s, (inl e, s).
Definition bind {S A B} (m : M S A) (k : A → M S B) : M S B :=
  λ s, match m s with
       | (inl e, s') => (inl e, s')
       | (inr a, s') => k a s'
       end.
Definition of_result {S A} (r : result A) : M S A := λ s, (r, s).
Definition get {S} : M S S := λ s, (inr s, s).
Definition put {S} (s : S) : M S unit := λ _, (inr tt, s).

(** Object references. *)
Definition loc := positive.

(** [str.lower()] on a string of bytes: the letters A to Z are lowered and
    every other byte is kept. *)
Definition ascii_lower (c : ascii) : ascii :=
  let n := nat_of_ascii c in
  if ((65 <=? n)%nat && (n <=? 90)%nat)%bool then ascii_of_nat (n + 32) else c.

Fixpoint lower (s : string) : string :=
  match s with
  | EmptyString => EmptyString
  | String c s' => String (ascii_lower c) (lower s')
  end.

(** [math.pi], the double nearest to pi. *)
Definition math_pi : float := 0x1.921fb54442d18p+1%float.

(** Normalisation of one slice bound against a dimension of length [len]
    ([PySlice_AdjustIndices] for step 1): a negative bound counts from the
    end, and both bounds are clamped to [0, len]. *)
Definition adjust_bound (len : Z) (i : Z) : Z :=
  if i <? 0 then Z.max (i + len) 0 else Z.min i len.

(** [start:stop] on a dimension of length [len]: the first index taken and
    the number of indices taken.  [None] is an omitted bound. *)
Definition slice_indices (len : nat) (start stop : option Z) : nat * nat :=
  let lo := adjust_bound (Z.of_nat len) (default 0 start) in
  let hi := adjust_bound (Z.of_nat len) (default (Z.of_nat len) stop) in
  (Z.to_nat lo, Z.to_nat (hi - lo)).

(** An integer subscript on a dimension of length [len]. *)
Definition index_of (len : nat) (i : Z) : result nat :=
  let j := if i <? 0 then i + Z.of_nat len else i in
  if (0 <=? j) && (j <? Z.of_nat len) then ok (Z.to_nat j) else raise IndexError.

End Py.

Export Py.

#[export] Instance result_ret : MRet result := @ok.
#[export] Instance result_bind : MBind result := λ A B k r, rbind r k.
#[export] Instance M_ret {S} : MRet (M S) := @ret S.
#[export] Instance M_bind {S} : MBind (M S) := λ A B k m, bind m k.

(** ** Module [random] *)

(** The generator behind module [random]: seeding replaces the whole state
    by one that depends on the seed alone, and [_randbelow n] returns a
    value below [n] together with the advanced state. *)
Class Random := {
  rng : Type;
  random_seed : Z → rng;
  randbelow : rng → Z → Z * rng;
  randbelow_range : ∀ s n, 0 < n → 0 ≤ (randbelow s n).1 < n;
}.

(** [xs[idx]] on a list. *)
Definition list_getitem {A} (xs : list A) (idx : Z) : result A :=
  i ← index_of (length xs) idx;
  match xs !! i with Some x => ok x | None => raise IndexError end.

Section random.
Context `{Random}.

(** [random.seed(a)] *)
Definition seed (a : Z) : M rng unit := put (random_seed a).

(** [random.randint(a, b)]: [randrange(a, b + 1)], which raises
    [ValueError] on an empty range. *)
Definition randint (a b : Z) : M rng Z :=
  λ s, if 0 <? b + 1 - a
       then let '(k, s') := randbelow s (b + 1 - a) in (ok (a + k), s')
       else (raise ValueError, s).

(** The state of the generator once the optional seed is applied. *)
Definition seeded (seed_ : option Z) (s : rng) : rng :=
  match seed_ with Some a => random_seed a | None => s end.

End random.

(** ** Tensors *)

Inductive dtype := float16 | float32 | float64 | uint8 | int32 | int64.
Inductive device := cpu | cuda (index : nat).

#[global] Instance dtype_eq_dec : EqDecision dtype.
Proof. solve_decision. Defined.
#[global] Instance device_eq_dec : EqDecision device.
Proof. solve_decision. Defined.

(** Tensor elements and the arithmetic of the tensor library on them.
    [of_number dt v] is the Python number [v] written into a tensor of
    element type [dt]. *)
Class Scalars := {
  scalar : Type;
  of_number : dtype → float → scalar;
  s_add : scalar → scalar → scalar;
  s_sub : scalar → scalar → scalar;
  s_mul : scalar → scalar → scalar;
  promote_types : dtype → dtype → dtype;
}.

Section tensor.
Context `{Scalars}.

(** A tensor is its size, element type, device and entries, the entries read
    by multi-index (how they are laid out in storage plays no role here). *)
Record Tensor := {
  t_shape : list nat;
  t_dtype : dtype;
  t_device : device;
  t_entry : list nat → scalar;
}.

(** [x.dim()] *)
Definition dim (x : Tensor) : nat := length (t_shape x).

(** [x.size(k)] *)
Definition tensor_size (x : Tensor) (k : Z) : result nat :=
  list_getitem (t_shape x) k.

(** [x.unsqueeze(0)] *)
Definition unsqueeze0 (x : Tensor) : Tensor :=
  {| t_shape := 1%nat :: t_shape x; t_dtype := t_dtype x;
     t_device := t_device x; t_entry := λ idx, t_entry x (tail idx) |}.

(** [x.squeeze(0)]: drops the leading dimension when its size is 1 and
    returns the tensor as it is otherwise. *)
Definition squeeze0 (x : Tensor) : Tensor :=
  match t_shape x with
  | 1%nat :: sh =>
      {| t_shape := sh; t_dtype := t_dtype x; t_device := t_device x;
         t_entry := λ idx, t_entry x (0%nat :: idx) |}
  | _ => x
  end.

(** [torch.zeros(shape, device=dev, dtype=dt)] *)
Definition zeros (sh : list nat) (dev : device) (dt : dtype) : Tensor :=
  {| t_shape := sh; t_dtype := dt; t_device := dev;
     t_entry := λ _, of_number dt 0 |}.

(** The subscripts [idx], one per dimension, as a multi-index. *)
Fixpoint multi_index (sh : list nat) (idx : list Z) : result (list nat) :=
  match sh, idx with
  | [], [] => ok []
  | d :: sh', i :: idx' =>
      j ← index_of d i; js ← multi_index sh' idx'; ok (j :: js)
  | _, _ => raise IndexError
  end.

(** [x[i0, ..., ik] = v] for a Python number [v] and one subscript per
    dimension. *)
Definition setitem (x : Tensor) (idx : list Z) (v : float) : result Tensor :=
  js ← multi_index (t_shape x) idx;
  ok {| t_shape := t_shape x; t_dtype := t_dtype x; t_device := t_device x;
        t_entry := λ i, if decide (i = js) then of_number (t_dtype x) v
                        else t_entry x i |}.

(** [x[i]]: the sub-tensor at position [i] of the leading dimension. *)
Definition select0 (x : Tensor) (i : Z) : result Tensor :=
  match t_shape x with
  | [] => raise IndexError
  | d :: sh =>
      j ← index_of d i;
      ok {| t_shape := sh; t_dtype := t_dtype x; t_device := t_device x;
            t_entry := λ idx, t_entry x (j :: idx) |}
  end.

(** The size left by the slices [sl] on the leading dimensions of [sh]. *)
Fixpoint sliced_shape (sh : list nat) (sl : list (option Z * option Z))
    : result (list nat) :=
  match sl, sh with
  | [], _ => ok sh
  | (a, b) :: sl', d :: sh' =>
      r ← sliced_shape sh' sl'; ok ((slice_indices d a b).2 :: r)
  | _ :: _, [] => raise IndexError
  end.

(** The multi-index of the source that the slices [sl] show at [idx]. *)
Fixpoint sliced_index (sh : list nat) (sl : list (option Z * option Z))
    (idx : list nat) : list nat :=
  match sl, sh, idx with
  | (a, b) :: sl', d :: sh', i :: idx' =>
      ((slice_indices d a b).1 + i)%nat :: sliced_index sh' sl' idx'
  | _, _, _ => idx
  end.

(** [x[a0:b0, a1:b1, ...]]: one slice for each of the leading dimensions. *)
Definition getitem_slices (x : Tensor) (sl : list (option Z * option Z))
    : result Tensor :=
  sh ← sliced_shape (t_shape x) sl;
  ok {| t_shape := sh; t_dtype := t_dtype x; t_device := t_device x;
        t_entry := λ idx, t_entry x (sliced_index (t_shape x) sl idx) |}.

(** [x.repeat(r0, ..., rk)]: the tensor tiled [ri] times along dimension
    [i], its size first extended by leading ones to the number of repeats. *)
Definition tensor_repeat (x : Tensor) (reps : list Z) : result Tensor :=
  if bool_decide (Forall (λ r, 0 ≤ r) reps ∧ (dim x ≤ length reps)%nat) then
    let pad := (length reps - dim x)%nat in
    ok {| t_shape := zip_with (λ r d, (Z.to_nat r * d)%nat) reps
                       (replicate pad 1%nat ++ t_shape x);
          t_dtype := t_dtype x; t_device := t_device x;
          t_entry := λ idx, t_entry x
                       (zip_with (λ i d, (i mod d)%nat) (drop pad idx) (t_shape x)) |}
  else raise RuntimeError.

(** Broadcasting of two sizes, read from the last dimension: two dimensions
    go together when they are equal or one of them is 1. *)
Fixpoint broadcast_rev (a b : list nat) : result (list nat) :=
  match a, b with
  | [], _ => ok b
  | _, [] => ok a
  | x :: a', y :: b' =>
      r ← broadcast_rev a' b';
      if bool_decide (x = y) then ok (x :: r)
      else if bool_decide (x = 1%nat) then ok (y :: r)
      else if bool_decide (y = 1%nat) then ok (x :: r)
      else raise RuntimeError
  end.

Definition broadcast_shapes (a b : list nat) : result (list nat) :=
  r ← broadcast_rev (rev a) (rev b); ok (rev r).

(** Where an operand of size [sh] is read for the entry [idx] of the
    broadcast result: its own trailing dimensions, at 0 where it has size 1. *)
Definition broadcast_index (sh : list nat) (idx : list nat) : list nat :=
  zip_with (λ d i, if bool_decide (d = 1%nat) then 0%nat else i) sh
    (drop (length idx - length sh) idx).

(** An element-wise binary operation of the library: both operands on one
    device, sizes broadcast, element types promoted. *)
Definition elementwise (f : scalar → scalar → scalar) (x y : Tensor)
    : result Tensor :=
  if bool_decide (t_device x = t_device y) then
    sh ← broadcast_shapes (t_shape x) (t_shape y);
    ok {| t_shape := sh; t_dtype := promote_types (t_dtype x) (t_dtype y);
          t_device := t_device x;
          t_entry := λ idx, f (t_entry x (broadcast_index (t_shape x) idx))
                              (t_entry y (broadcast_index (t_shape y) idx)) |}
  else raise RuntimeError.

(** [x * y] and [x + y] *)
Definition tensor_mul := elementwise s_mul.
Definition tensor_add := elementwise s_add.

(** [v - x] for a Python number [v]. *)
Definition rsub (v : float) (x : Tensor) : Tensor :=
  {| t_shape := t_shape x; t_dtype := t_dtype x; t_device := t_device x;
     t_entry := λ idx, s_sub (of_number (t_dtype x) v) (t_entry x idx) |}.

End tensor.

Arguments Tensor {_}.

(** ** The libraries the transforms call *)

(** The C library's [cos] and [sin] on doubles. *)
Class Libm := {
  libm_cos : float → float;
  libm_sin : float → float;
}.

(** [math.cos] and [math.sin]: the C library's functions, except that
    Python raises [ValueError] (math domain error) on an infinite argument. *)
Definition math_cos `{Libm} (x : float) : result float :=
  if is_infinity x then raise ValueError else ok (libm_cos x).

Definition math_sin `{Libm} (x : float) : result float :=
  if is_infinity x then raise ValueError else ok (libm_sin x).

(** [torch.nn.functional]: the three kernels the transforms call, with the
    one fact on sizes their documentation states that is used below: sampling
    an input of size (N, C, H, W) gives an output of size (N, C, H', W'). *)
Class Functional `{Scalars} := {
  interpolate : Tensor → float → string → option bool → result Tensor;
  affine_grid : Tensor → list nat → result Tensor;
  grid_sample : Tensor → Tensor → string → string → result Tensor;
  grid_sample_shape : ∀ x grid mode padding_mode y n c h w,
    t_shape x = [n; c; h; w] →
    grid_sample x grid mode padding_mode = ok y →
    ∃ h' w', t_shape y = [n; c; h'; w'];
}.

(** Modelled from the spec: class [FFTImage] of [visual/images.py] is not
    among the sources; the glossary describes it as an image represented in
    frequency space and inverse-transformed to pixel space before use.  The
    chain [FFTImage(size, correlate, sd, decay_power, requires_grad=False)
    .to(device).sigmoid().get_valid_image()] is taken as one operation that
    draws from the tensor library's generator and, when it succeeds, returns
    an image of the size and on the device it was asked for. *)
Class Images `{Scalars} := {
  torch_rng : Type;
  fft_valid_image :
    list Z → bool → float → float → device → M torch_rng Tensor;
  fft_valid_image_shape : ∀ size correlate sd decay_power dev s r s',
    fft_valid_image size correlate sd decay_power dev s = (ok r, s') →
    t_shape r = Z.to_nat <$> size ∧ t_device r = dev;
}.

(** ** visual/transforms.py *)

(** The attributes of the transform classes. *)
Module Compose.
Record obj := { _transforms : list loc }.
End Compose.

Module RandomScale.
Record obj := {
  _scales : loc;
  _mode : string;
  _align_corners : option bool;
  _seed : option Z;
}.
End RandomScale.

Module RandomRotate.
Record obj := {
  _angles : loc;
  _mode : string;
  _padding_mode : string;
  _seed : option Z;
}.
End RandomRotate.

Module RandomAlpha.
Record obj := {
  _sd : float;
  _decay_power : float;
  _colour : bool;
}.
End RandomAlpha.

Module SpatialJitter.
Record obj := {
  _pixels : Z;
  _seed : option Z;
}.
End SpatialJitter.

(** A transform object is an instance of one of the five classes. *)
Inductive transform :=
  | a_Compose (o : Compose.obj)
  | a_RandomScale (o : RandomScale.obj)
  | a_RandomRotate (o : RandomRotate.obj)
  | a_RandomAlpha (o : RandomAlpha.obj)
  | a_SpatialJitter (o : SpatialJitter.obj).

Section transforms.
Context `{Random} `{Scalars} `{!Functional} `{!Libm} `{!Images}.

(** What a call can read and write: the transform objects and the Python
    lists they refer to, and the states of the two generators. *)
Record World := {
  objects : gmap loc transform;
  lists : gmap loc (list float);
  random : rng;
  torch_random : torch_rng;
}.

Definition set_objects (o : gmap loc transform) (w : World) : World :=
  {| objects := o; lists := lists w; random := random w;
     torch_random := torch_random w |}.
Definition set_lists (l : gmap loc (list float)) (w : World) : World :=
  {| objects := objects w; lists := l; random := random w;
     torch_random := torch_random w |}.
Definition set_random (s : rng) (w : World) : World :=
  {| objects := objects w; lists := lists w; random := s;
     torch_random := torch_random w |}.
Definition set_torch_random (s : torch_rng) (w : World) : World :=
  {| objects := objects w; lists := lists w; random := random w;
     torch_random := s |}.

(** A computation on the generator of [random], run in the world. *)
Definition with_random {A} (m : M rng A) : M World A :=
  λ w, let r := m (random w) in (r.1, set_random r.2 w).

(** A computation on the generator of the tensor library. *)
Definition with_torch_random {A} (m : M torch_rng A) : M World A :=
  λ w, let r := m (torch_random w) in (r.1, set_torch_random r.2 w).

(** [list(xs)] for a reference [xs]: the elements of the list it refers to. *)
Definition list_of (xs : loc) : M World (list float) :=
  λ w, match lists w !! xs with
       | Some l => (ok l, w)
       | None => (raise TypeError, w)
       end.

(** [xs[i] = v] for a reference [xs]. *)
Definition list_setitem (xs : loc) (i : Z) (v : float) : M World unit :=
  λ w, match lists w !! xs with
       | Some l =>
           match index_of (length l) i with
           | inr j => (ok tt, set_lists (<[xs := <[j := v]> l]> (lists w)) w)
           | inl e => (inl e, w)
           end
       | None => (raise TypeError, w)
       end.

(** [self.attr = ...] for every attribute of a new object at once. *)
Definition set_object (self : loc) (o : transform) : M World unit :=
  λ w, (ok tt, set_objects (<[self := o]> (objects w)) w).

Definition get_object (self : loc) : M World transform :=
  λ w, match objects w !! self with
       | Some o => (ok o, w)
       | None => (raise TypeError, w)
       end.

(** [for i in range(n): body(i)] *)
Fixpoint for_range {St} (start : Z) (n : nat) (body : Z → M St unit)
    : M St unit :=
  match n with
  | O => mret tt
  | S n' => _ ← body start; for_range (start + 1) n' body
  end.

Definition _rand_select {A} (xs : list A) (seed_ : option Z) : M rng A :=
  _ ← match seed_ with Some a => seed a | None => mret tt end;
  idx ← randint 0 (Z.of_nat (length xs) - 1);
  of_result (list_getitem xs idx).

Definition _as_4d (x : Tensor) : Tensor :=
  if bool_decide (dim x = 3%nat) then unsqueeze0 x else x.

Definition _as_3d (x : Tensor) : Tensor :=
  if bool_decide (dim x = 4%nat) then squeeze0 x else x.

(** *** RandomScale *)

Definition RandomScale_get_params {A} (scales : list A) (seed_ : option Z)
    : M rng A :=
  _rand_select scales seed_.

Definition RandomScale_call (self : RandomScale.obj) (x : Tensor)
    : M World Tensor :=
  let x := _as_4d x in
  scales ← list_of (RandomScale._scales self);
  scale_factor ← with_random
    (RandomScale_get_params scales (RandomScale._seed self));
  y ← of_result (interpolate x scale_factor (RandomScale._mode self)
                   (RandomScale._align_corners self));
  mret (_as_3d y).

(** *** RandomRotate *)

(** [RandomRotate.__init__], run on the new object [self]. *)
Definition RandomRotate_init (self : loc) (angles : loc) (units : string)
    (mode padding_mode : string) (seed_ : option Z) : M World unit :=
  _ ← (if bool_decide (lower units ∈ ["degrees"; "degs"; "deg"]) then
         l ← list_of angles;
         for_range 0 (length l) (λ i,
           l ← list_of angles;
           a ← of_result (list_getitem l i);
           list_setitem angles i (math_pi * a / 180)%float)
       else mret tt);
  set_object self (a_RandomRotate
    {| RandomRotate._angles := angles; RandomRotate._mode := mode;
       RandomRotate._padding_mode := padding_mode;
       RandomRotate._seed := seed_ |}).

Definition RandomRotate_get_params {A} (angles : list A) (seed_ : option Z)
    : M rng A :=
  _rand_select angles seed_.

(** The matrix [theta] that [__call__] fills in for [angle], starting from
    zeros on the device and with the element type of [x]; each of the four
    assignments evaluates [math.cos] or [math.sin] first, which may raise. *)
Definition rotation_theta (x : Tensor) (angle : float) : result Tensor :=
  let theta := zeros [1; 2; 3]%nat (t_device x) (t_dtype x) in
  c ← math_cos angle;
  theta ← setitem theta [0; 0; 0] c;
  c ← math_cos angle;
  theta ← setitem theta [0; 1; 1] c;
  s ← math_sin angle;
  theta ← setitem theta [0; 0; 1] s;
  s ← math_sin angle;
  theta ← setitem theta [0; 1; 0] (- s)%float;
  ok theta.

Definition RandomRotate_call (self : RandomRotate.obj) (x : Tensor)
    : M World Tensor :=
  let x := _as_4d x in
  angles ← list_of (RandomRotate._angles self);
  angle ← with_random
    (RandomRotate_get_params angles (RandomRotate._seed self));
  theta ← of_result (rotation_theta x angle);
  grid ← of_result (affine_grid theta (t_shape x));
  y ← of_result (grid_sample x grid (RandomRotate._mode self)
                   (RandomRotate._padding_mode self));
  mret (_as_3d y).

(** *** RandomAlpha *)

Definition RandomAlpha_call (self : RandomAlpha.obj) (x : Tensor)
    : M World Tensor :=
  let x := _as_3d x in
  let size_ := Z.of_nat <$> t_shape x in
  size0 ← of_result
    (if RandomAlpha._colour self
     then s0 ← list_getitem size_ 0; ok (s0 - 1)
     else ok 1);
  size_ ← of_result
    (j ← index_of (length size_) 0; ok (<[j := size0]> size_));
  random_image ← with_torch_random
    (fft_valid_image size_ (RandomAlpha._colour self) (RandomAlpha._sd self)
       (RandomAlpha._decay_power self) (t_device x));
  alpha ← of_result
    (last ← select0 x (-1);
     c ← tensor_size x 0;
     tensor_repeat last [Z.of_nat c - 1; 1; 1]);
  image ← of_result
    (front ← getitem_slices x [(None, Some (-1))]; tensor_mul front alpha);
  random_image ← of_result (tensor_mul random_image (rsub 1 alpha));
  of_result (tensor_add image random_image).

(** *** SpatialJitter *)

Definition SpatialJitter_get_params (pixels : Z) (seed_ : option Z)
    : M rng (Z * Z) :=
  _ ← match seed_ with Some a => seed a | None => mret tt end;
  a ← randint 0 pixels;
  b ← randint 0 pixels;
  mret (a, b).

Definition SpatialJitter_call (self : SpatialJitter.obj) (img : Tensor)
    : M World Tensor :=
  let img := _as_3d img in
  offsets ← with_random
    (SpatialJitter_get_params (SpatialJitter._pixels self)
       (SpatialJitter._seed self));
  let x_offset := offsets.1 in
  let y_offset := offsets.2 in
  h ← of_result (tensor_size img 1);
  let x_end := Z.of_nat h - (SpatialJitter._pixels self - x_offset) in
  w ← of_result (tensor_size img 2);
  let y_end := Z.of_nat w - (SpatialJitter._pixels self - y_offset) in
  of_result (getitem_slices img
    [(None, None); (Some x_offset, Some x_end); (Some y_offset, Some y_end)]).

(** *** Compose and the call of a transform object *)

(** [for transform in self._transforms: x = transform(x)], where [invoke]
    calls the object a reference points to. *)
Fixpoint Compose_loop (invoke : loc → Tensor → M World Tensor)
    (transforms : list loc) (x : Tensor) : M World Tensor :=
  match transforms with
  | [] => mret x
  | t :: rest => x ← invoke t x; Compose_loop invoke rest x
  end.

Definition Compose_call (invoke : loc → Tensor → M World Tensor)
    (self : Compose.obj) (x : Tensor) : M World Tensor :=
  Compose_loop invoke (Compose._transforms self) x.

(** [self(x)] for a reference [self]: the [__call__] of the class of the
    object.  A [Compose] calls the objects it holds, which may be [Compose]
    objects again; [depth] is the number of nested calls the interpreter
    still allows before it raises [RecursionError]. *)
Fixpoint call (depth : nat) (self : loc) (x : Tensor) : M World Tensor :=
  match depth with
  | O => throw RecursionError
  | S depth' =>
      o ← get_object self;
      match o with
      | a_Compose c => Compose_call (call depth') c x
      | a_RandomScale r => RandomScale_call r x
      | a_RandomRotate r => RandomRotate_call r x
      | a_RandomAlpha r => RandomAlpha_call r x
      | a_SpatialJitter r => SpatialJitter_call r x
      end
  end.

End transforms.

(** *** The other constructors and the getters *)

Section constructors.
Context `{Random} `{Scalars} `{!Functional} `{!Libm} `{!Images}.

(** [Compose.__init__], run on the new object [self]. *)
Definition Compose_init (self : loc) (transforms : list loc) : M World unit :=
  set_object self (a_Compose {| Compose._transforms := transforms |}).

(** [RandomScale.__init__] *)
Definition RandomScale_init (self : loc) (scales : loc) (mode : string)
    (align_corners : option bool) (seed_ : option Z) : M World unit :=
  set_object self (a_RandomScale
    {| RandomScale._scales := scales; RandomScale._mode := mode;
       RandomScale._align_corners := align_corners;
       RandomScale._seed := seed_ |}).

(** [RandomAlpha.__init__] *)
Definition RandomAlpha_init (self : loc) (sd decay_power : float)
    (colour : bool) : M World unit :=
  set_object self (a_RandomAlpha
    {| RandomAlpha._sd := sd; RandomAlpha._decay_power := decay_power;
       RandomAlpha._colour := colour |}).

(** [SpatialJitter.__init__] *)
Definition SpatialJitter_init (self : loc) (pixels : Z) (seed_ : option Z)
    : M World unit :=
  set_object self (a_SpatialJitter
    {| SpatialJitter._pixels := pixels; SpatialJitter._seed := seed_ |}).

End constructors.

(** ** visual/models/utils.py *)

(** The classes an object of a network can have: the five activation
    classes the module lists, and any other class (a subclass of one of the
    five is another class: the code compares [type(m)] itself). *)
Inductive pyclass :=
  | ReLU | ReLU6 | LeakyReLU | RReLU | PReLU
  | a_class (qualname : string).

#[global] Instance pyclass_eq_dec : EqDecision pyclass.
Proof. solve_decision. Defined.

Definition _relu_classes : list pyclass := [ReLU; ReLU6; LeakyReLU; RReLU; PReLU].

(** Values of the attributes set in this file. *)
Inductive value :=
  | VNone
  | VBool (b : bool)
  | VStr (s : string)
  | VList (l : list string).

(** A [torch.nn.Module] object: its class, its plain attributes and its
    [_modules], the named children in order (a child may be [None]). *)
Record module := {
  m_type : pyclass;
  m_attrs : gmap string value;
  m_modules : list (string * option loc);
}.

Section modules.

(** The store of module objects. *)
Abbreviation heap := (gmap loc module).

(** [for name, module in self._modules.items(): ... named_modules(memo)]:
    the children that are not [None], each traversed by [visit] with the
    memo the previous ones left. *)
Fixpoint visit_children (visit : loc → gset loc → option (list loc * gset loc))
    (children : list (string * option loc)) (memo : gset loc)
    : option (list loc * gset loc) :=
  match children with
  | [] => Some ([], memo)
  | (_, None) :: rest => visit_children visit rest memo
  | (_, Some c) :: rest =>
      r ← visit c memo;
      r' ← visit_children visit rest r.2;
      Some (r.1 ++ r'.1, r'.2)
  end.

(** [Module.named_modules(memo)] without the names: [self] unless the memo
    has it, then the modules below its children, depth first.  The result is
    [None] when [fuel] nested calls do not suffice or a reference points to
    no object. *)
Fixpoint named_modules (fuel : nat) (h : heap) (self : loc) (memo : gset loc)
    : option (list loc * gset loc) :=
  match fuel with
  | O => None
  | S fuel' =>
      if decide (self ∈ memo) then Some ([], memo)
      else
        m ← h !! self;
        r ← visit_children (named_modules fuel' h) (m_modules m) ({[self]} ∪ memo);
        Some (self :: r.1, r.2)
  end.

(** [list(model.modules())]: a nested call adds a module to the memo, so
    one more call than there are objects is never reached. *)
Definition modules (h : heap) (model : loc) : option (list loc) :=
  fst <$> named_modules (S (size h)) h model ∅.

(** [setattr(self, name, v)] for a plain attribute. *)
Definition setattr (self : loc) (name : string) (v : value) : M heap unit :=
  λ h, match h !! self with
       | Some m =>
           (ok tt, <[self := {| m_type := m_type m;
                                m_attrs := <[name := v]> (m_attrs m);
                                m_modules := m_modules m |}]> h)
       | None => (raise TypeError, h)
       end.

(** [type(m)] *)
Definition type_of (m : loc) : M heap pyclass :=
  λ h, match h !! m with
       | Some o => (ok (m_type o), h)
       | None => (raise TypeError, h)
       end.

(** [for m in ms: body(m)] *)
Fixpoint for_each {St A} (ms : list A) (body : A → M St unit) : M St unit :=
  match ms with
  | [] => mret tt
  | m :: rest => _ ← body m; for_each rest body
  end.

(** The body of the loop of [relus_to_not_inplace]. *)
Definition relu_to_not_inplace (m : loc) : M heap unit :=
  ty ← type_of m;
  if bool_decide (ty ∈ _relu_classes) then setattr m "inplace" (VBool false)
  else mret tt.

(** The loop runs over the generator [model.modules()]; its body writes one
    plain attribute and no [_modules], so the modules the generator yields
    are those it would yield before the loop started. *)
Definition relus_to_not_inplace (model : loc) : M heap unit :=
  λ h, match modules h model with
       | Some ms => for_each ms relu_to_not_inplace h
       | None => (raise RecursionError, h)
       end.

Context {Args : Type}.

(** A class of models, as [basemodel] uses it: its names and its
    constructor, run on the new object. *)
Record model_class := {
  __name__ : string;
  __qualname__ : string;
  __init__ : loc → Args → M heap unit;
}.

(** [BaseModel.__init__] of the class [basemodel(model)] returns. *)
Definition BaseModel_init (model : model_class) (self : loc)
    (layer_names : list string) (args : Args) : M heap unit :=
  _ ← __init__ model self args;
  _ ← relus_to_not_inplace self;
  _ ← setattr self "layer_names" (VList layer_names);
  _ ← setattr self "__name__" (VStr (__name__ model));
  setattr self "__qualname__" (VStr (__qualname__ model)).

End modules.

(** [self.name] for a plain attribute: [None] when the object has no such
    attribute (Python raises [AttributeError]). *)
Definition getattr (h : gmap loc module) (self : loc) (name : string)
    : option value :=
  m ← h !! self; m_attrs m !! name.

(** [BaseModel.get_layer_names] *)
Definition get_layer_names (h : gmap loc module) (self : loc) : option value :=
  getattr h self "layer_names".

(** [BaseModel._get_name] *)
Definition _get_name (h : gmap loc module) (self : loc) : option value :=
  getattr h self "__name__".

(** No reference to a child points outside the store. *)
Definition closed (h : gmap loc module) : Prop :=
  map_Forall (λ _ m,
    Forall (λ c, from_option (λ l, is_Some (h !! l)) True c.2) (m_modules m)) h.

Section storing.
Context `{Countable K} {V : Type}.

(** The attributes of a [Storer]. *)
Record Storer := {
  save_state : loc;
  name : K;
}.

(** [Storer.__init__] *)
Definition Storer_init (save_state : loc) (name : K) : Storer :=
  {| save_state := save_state; name := name |}.

(** [Storer.forward]: [self.save_state] refers to a dictionary that the
    caller holds too, so the dictionaries are in a store. *)
Definition Storer_forward (self : Storer) (x : V) : M (gmap loc (gmap K V)) V :=
  λ dicts,
    match dicts !! save_state self with
    | Some d => (ok x, <[save_state self := <[name self := x]> d]> dicts)
    | None => (raise TypeError, dicts)
    end.

(** What a state holds under a key: a dictionary, or a value that does not
    take [v[name] = x].  A state is passed to [storer] and handed back
    updated; the dictionary under a key is part of the state (a state does
    not hold itself). *)
Inductive slot :=
  | a_dict (d : gmap K V)
  | not_a_dict (v : V).

(** The key [LAYER_DICT] of package [visual], whose definition is not among
    the sources: any key. *)
Context (LAYER_DICT : K).

(** [state[LAYER_DICT][name] = x] *)
Definition storer_try (state : gmap K slot) (name : K) (x : V)
    : result (gmap K slot) :=
  match state !! LAYER_DICT with
  | None => raise KeyError
  | Some (not_a_dict _) => raise TypeError
  | Some (a_dict d) => ok (<[LAYER_DICT := a_dict (<[name := x]> d)]> state)
  end.

Definition storer (name : K) (x : V) : M (gmap K slot) V :=
  λ state,
    match storer_try state name x with
    | inr state' => (ok x, state')
    | inl _ => (ok x, <[LAYER_DICT := a_dict {[name := x]}]> state)
    end.

End storing.

Arguments slot K {_ _} V.
Arguments a_dict {K _ _ V} d.
Arguments not_a_dict {K _ _ V} v.

(** ** A small instance of the interfaces

    The definitions above are run on concrete inputs with this instance: a
    linear congruential generator for module [random], doubles as tensor
    elements, and stand-ins of the documented sizes for the kernels. *)

Module Reference.

Definition lcg_below (s n : Z) : Z * Z :=
  (s mod n, (s * 6364136223846793005 + 1442695040888963407) mod 2 ^ 64).

Lemma lcg_below_range s n : 0 < n → 0 ≤ (lcg_below s n).1 < n.
Proof. intros Hn; simpl. apply Z.mod_pos_bound, Hn. Qed.

#[global] Instance lcg : Random := {|
  rng := Z;
  random_seed a := Z.abs a;
  randbelow := lcg_below;
  randbelow_range := lcg_below_range;
|}.

#[global] Instance doubles : Scalars := {|
  scalar := float;
  of_number _ v := v;
  s_add := PrimFloat.add;
  s_sub := PrimFloat.sub;
  s_mul := PrimFloat.mul;
  promote_types a b := if decide (a = b) then a else float64;
|}.

(** The first terms of the power series. *)
#[global] Instance series : Libm := {|
  libm_cos a := (1 - a * a / 2 + a * a * a * a / 24)%float;
  libm_sin a := (a - a * a * a / 6 + a * a * a * a * a / 120)%float;
|}.

(** The grid of an affine map: the weights of [theta] on the last
    dimension (the coordinates they multiply are left out). *)
Definition affine_grid_ref (theta : Tensor) (size_ : list nat) : result Tensor :=
  match t_shape theta, size_ with
  | [n; 2; 3]%nat, [n'; c; h; w] =>
      if bool_decide (n = n') then
        ok {| t_shape := [n; h; w; 2%nat]; t_dtype := t_dtype theta;
              t_device := t_device theta;
              t_entry := λ idx, t_entry theta [idx !!! 0%nat; idx !!! 3%nat; 2%nat] |}
      else raise RuntimeError
  | _, _ => raise RuntimeError
  end.

(** Sampling at the grid's own positions, wrapped into the input. *)
Definition grid_sample_ref (x grid : Tensor) (mode padding_mode : string)
    : result Tensor :=
  match t_shape x, t_shape grid with
  | [n; c; h; w], [n'; h'; w'; 2%nat] =>
      if bool_decide (n = n') then
        ok {| t_shape := [n; c; h'; w']; t_dtype := t_dtype x;
              t_device := t_device x;
              t_entry := λ idx, t_entry x
                [idx !!! 0%nat; idx !!! 1%nat;
                 (idx !!! 2%nat) `mod` h; (idx !!! 3%nat) `mod` w]%nat |}
      else raise RuntimeError
  | _, _ => raise RuntimeError
  end.


Lemma grid_sample_ref_shape x grid mode padding_mode y n c h w :
  t_shape x = [n; c; h; w] →
  grid_sample_ref x grid mode padding_mode = ok y →
  ∃ h' w', t_shape y = [n; c; h'; w'].
Proof.
  intros Hx. unfold grid_sample_ref. rewrite Hx.
  destruct (t_shape grid) as [|n' [|h' [|w' [|[|[|[|?]]] [|??]]]]]; try discriminate.
  case_bool_decide; [|discriminate]. intros [= <-]. by eexists _, _.
Qed.

(** Scaling by any factor stands in as the identity on a batch. *)
Definition interpolate_ref (x : Tensor) (scale_factor : float) (mode : string)
    (align_corners : option bool) : result Tensor :=
  if bool_decide (dim x = 4%nat) then ok x else raise RuntimeError.

#[global] Instance kernels : Functional := {|
  interpolate := interpolate_ref;
  affine_grid := affine_grid_ref;
  grid_sample := grid_sample_ref;
  grid_sample_shape := grid_sample_ref_shape;
|}.

(** An image of one grey level that changes from draw to draw. *)
Definition fft_ref (size_ : list Z) (correlate : bool) (sd decay_power : float)
    (dev : device) : M Z Tensor :=
  λ s, (ok {| t_shape := Z.to_nat <$> size_; t_dtype := float32;
              t_device := dev;
              t_entry := λ _, (1 / (2 + PrimFloat.of_uint63 (Uint63.of_Z s)))%float |},
        s + 1).

Lemma fft_ref_shape size_ correlate sd decay_power dev s r s' :
  fft_ref size_ correlate sd decay_power dev s = (ok r, s') →
  t_shape r = Z.to_nat <$> size_ ∧ t_device r = dev.
Proof. intros [= <- <-]. done. Qed.

#[global] Instance images : Images := {|
  torch_rng := Z;
  fft_valid_image := fft_ref;
  fft_valid_image_shape := fft_ref_shape;
|}.

(** An image whose entry at a multi-index is the sum of its indices. *)
Definition ramp (sh : list nat) : Tensor :=
  {| t_shape := sh; t_dtype := float32; t_device := cpu;
     t_entry := λ idx, PrimFloat.of_uint63 (Uint63.of_Z (Z.of_nat (sum_list idx))) |}.

(** A world with a list of three angles at reference 1, a list of two
    scales at reference 2, and one object of each class. *)
Definition jitter : SpatialJitter.obj :=
  {| SpatialJitter._pixels := 2; SpatialJitter._seed := Some 7 |}.
Definition rotate : RandomRotate.obj :=
  {| RandomRotate._angles := 1%positive; RandomRotate._mode := "bilinear";
     RandomRotate._padding_mode := "zeros"; RandomRotate._seed := None |}.
Definition scale : RandomScale.obj :=
  {| RandomScale._scales := 2%positive; RandomScale._mode := "bilinear";
     RandomScale._align_corners := None; RandomScale._seed := None |}.
Definition alpha : RandomAlpha.obj :=
  {| RandomAlpha._sd := 0.5; RandomAlpha._decay_power := 1;
     RandomAlpha._colour := true |}.

Definition world : World :=
  {| objects := {[ 10%positive := a_SpatialJitter jitter;
                   11%positive := a_RandomRotate rotate;
                   12%positive := a_RandomScale scale;
                   13%positive := a_RandomAlpha alpha;
                   14%positive := a_Compose
                     {| Compose._transforms := [10; 11; 13]%positive |} ]};
     lists := {[ 1%positive := [0; 90; 180]%float;
                 2%positive := [1; 0.5]%float ]};
     random := 42;
     torch_random := 7 |}.

(** A network with a shared in-place ReLU, a PReLU without the attribute
    and a child that is [None]. *)
Definition small_net (self : loc) (_ : unit) : M (gmap loc module) unit :=
  λ h, (ok tt,
        <[self := {| m_type := a_class "Net"; m_attrs := ∅;
                     m_modules := [("act1", Some 2%positive);
                                   ("drop", None);
                                   ("body", Some 3%positive)] |}]>
        (<[2%positive := {| m_type := ReLU;
                            m_attrs := {[ "inplace" := VBool true ]};
                            m_modules := [] |}]>
        (<[3%positive := {| m_type := a_class "Sequential"; m_attrs := ∅;
                            m_modules := [("0", Some 4%positive);
                                          ("1", Some 2%positive)] |}]>
        (<[4%positive := {| m_type := PReLU; m_attrs := ∅;
                            m_modules := [] |}]> h)))).

Definition small_net_class : model_class :=
  {| __name__ := "Net"; __qualname__ := "Net"; __init__ := small_net |}.

(** The objects of the example world with three more: a composition of the
    jitter alone, one of the rotation and the alpha composite, and one of
    these two compositions. *)
Definition nested_world : World :=
  set_objects
    (<[ 15%positive := a_Compose {| Compose._transforms := [10%positive] |} ]>
     (<[ 16%positive := a_Compose {| Compose._transforms := [11; 13]%positive |} ]>
      (<[ 17%positive := a_Compose {| Compose._transforms := [15; 16]%positive |} ]>
       (objects world))))
    world.

(** A composition whose second transform is a jitter by a negative number
    of pixels. *)
Definition failing_world : World :=
  set_objects
    (<[ 30%positive := a_SpatialJitter
          {| SpatialJitter._pixels := -1; SpatialJitter._seed := None |} ]>
     (<[ 31%positive := a_Compose {| Compose._transforms := [10; 30; 11]%positive |} ]>
      (objects world)))
    world.

(** What the jitter of the example world, the first transform of that
    composition, returns. *)
Definition jittered : result Tensor * World :=
  Compose_loop (call 1) [10%positive] (ramp [4; 6; 7]%nat) failing_world.

(** A jitter by no pixel and a jitter by a negative number of pixels. *)
Definition still : SpatialJitter.obj :=
  {| SpatialJitter._pixels := 0; SpatialJitter._seed := None |}.
Definition backwards : SpatialJitter.obj :=
  {| SpatialJitter._pixels := -1; SpatialJitter._seed := Some 3 |}.

End Reference.

(** ** Vocabulary of the statements *)

Section vocabulary.
Context `{Random} `{Scalars} `{!Functional} `{!Libm} `{!Images}.

(** A computation keeps the objects and the lists of the world as they are. *)
Definition keeps_objects {A} (m : M World A) : Prop :=
  ∀ w, objects (m w).2 = objects w ∧ lists (m w).2 = lists w.

(** Degrees to radians, as the constructor computes it. *)
Definition to_radians (a : float) : float := (math_pi * a / 180)%float.


(** The sampling of [x] on the affine grid of [theta] with the modes of
    [self], before [_as_3d]. *)
Definition sampled (self : RandomRotate.obj) (x theta : Tensor) : result Tensor :=
  grid ← affine_grid theta (t_shape x);
  grid_sample x grid (RandomRotate._mode self) (RandomRotate._padding_mode self).

End vocabulary.

(** Two stores with the same objects, classes and children. *)
Definition same_structure (h h' : gmap loc module) : Prop :=
  ∀ l, m_type <$> h !! l = m_type <$> h' !! l ∧
       m_modules <$> h !! l = m_modules <$> h' !! l.

(** The attribute [inplace] of the object at [m] is [False] if its class is
    one of the listed activations. *)
Definition inplace_off (h : gmap loc module) (m : loc) : Prop :=
  ∀ o, h !! m = Some o → m_type o ∈ _relu_classes →
       m_attrs o !! "inplace" = Some (VBool false).

(** What one turn of the loop, and so the loop, may change at an object. *)
Definition only_inplace_differs (o o' : module) : Prop :=
  m_type o' = m_type o ∧
  m_modules o' = m_modules o ∧
  (∀ k, k ≠ "inplace" → m_attrs o' !! k = m_attrs o !! k) ∧
  (m_type o ∉ _relu_classes → o' = o).

(** * Properties *)

(** ** Drawing from a list *)

(** Unfolding of the state monad and of the result monad. *)
Ltac unfold_monad :=
  unfold mbind, mret, M_bind, M_ret, result_bind, result_ret, bind, ret,
    rbind, of_result, throw, put, get, ok, raise in *.

Section random_facts.
Context `{Random}.


Lemma randint_spec a b s :
  a ≤ b →
  ∃ k s', randint a b s = (ok k, s') ∧ a ≤ k ≤ b.
Proof.
  intros Hab. unfold randint.
  destruct (Z.ltb_spec 0 (b + 1 - a)) as [Hw|]; [|lia].
  pose proof (randbelow_range s _ Hw) as Hr.
  destruct (randbelow s (b + 1 - a)) as [k s']. simpl in Hr.
  exists (a + k), s'. split; [done | lia].
Qed.

Lemma randint_empty a b s : b < a → randint a b s = (raise ValueError, s).
Proof.
  intros Hab. unfold randint.
  destruct (Z.ltb_spec 0 (b + 1 - a)); [lia | done].
Qed.

Lemma index_of_in_range len i :
  0 ≤ i < Z.of_nat len → index_of len i = ok (Z.to_nat i).
Proof.
  intros Hi. unfold index_of.
  destruct (Z.ltb_spec i 0); [lia|].
  destruct (Z.leb_spec 0 i); [|lia].
  destruct (Z.ltb_spec i (Z.of_nat len)); [done | lia].
Qed.

Lemma list_getitem_in_range {A} (xs : list A) i :
  0 ≤ i < Z.of_nat (length xs) →
  ∃ x, list_getitem xs i = ok x ∧ xs !! Z.to_nat i = Some x.
Proof.
  intros Hi. unfold list_getitem. rewrite index_of_in_range by done.
  destruct (lookup_lt_is_Some_2 xs (Z.to_nat i)) as [x Hx]; [lia|].
  exists x. unfold_monad. by rewrite Hx.
Qed.

Lemma rand_select_unfold {A} (xs : list A) seed_ s :
  _rand_select xs seed_ s =
    match randint 0 (Z.of_nat (length xs) - 1) (seeded seed_ s) with
    | (inr idx, s') => (list_getitem xs idx, s')
    | (inl e, s') => (inl e, s')
    end.
Proof. unfold _rand_select, seeded. destruct seed_; reflexivity. Qed.

End random_facts.

Section claims_random.
Context `{Random}.

(** C6. On a non-empty sequence [_rand_select] draws an index between 0 and
    [len(xs) - 1] and returns the element of [xs] at that index; on the
    empty sequence the draw raises.  [RandomScale.get_params] and
    [RandomRotate.get_params] are [_rand_select]. *)
Theorem rand_select_in_bounds {A} (xs : list A) (seed_ : option Z) (s : rng) :
  RandomScale_get_params xs seed_ s = _rand_select xs seed_ s ∧
  RandomRotate_get_params xs seed_ s = _rand_select xs seed_ s ∧
  match xs with
  | [] => (_rand_select xs seed_ s).1 = raise ValueError
  | _ :: _ =>
      ∃ idx x s',
        randint 0 (Z.of_nat (length xs) - 1) (seeded seed_ s) = (ok idx, s') ∧
        0 ≤ idx ≤ Z.of_nat (length xs) - 1 ∧
        xs !! Z.to_nat idx = Some x ∧
        x ∈ xs ∧
        _rand_select xs seed_ s = (ok x, s')
  end.
Proof.
  split; [done|]. split; [done|].
  rewrite rand_select_unfold. destruct xs as [|x0 xs].
  - by rewrite randint_empty.
  - destruct (randint_spec 0 (Z.of_nat (length (x0 :: xs)) - 1) (seeded seed_ s))
      as (idx & s' & Hdraw & Hidx); [simpl; lia|].
    destruct (list_getitem_in_range (x0 :: xs) idx) as (x & Hget & Hx); [lia|].
    exists idx, x, s'. rewrite Hdraw. unfold ok in *. rewrite Hget.
    split_and!; try done; try lia.
    by eapply list_elem_of_lookup_2.
Qed.

(** C8. With a seed the selection does not depend on the state the
    generator was in: [_rand_select] and [SpatialJitter.get_params] seed the
    generator before they draw, so two calls with the same arguments return
    the same result. *)
Theorem seeded_selection_deterministic {A} (xs : list A) (pixels a : Z)
    (s1 s2 : rng) :
  _rand_select xs (Some a) s1 = _rand_select xs (Some a) s2 ∧
  SpatialJitter_get_params pixels (Some a) s1 =
    SpatialJitter_get_params pixels (Some a) s2.
Proof. split; reflexivity. Qed.

End claims_random.
(** ** Running the monad *)

Section monad_facts.
Context {St : Type}.

Lemma bind_ok {A B} (m : M St A) (k : A → M St B) s a s' :
  m s = (ok a, s') → (m ≫= k) s = k a s'.
Proof. intros Hm. unfold_monad. by rewrite Hm. Qed.

Lemma of_result_run {A} (r : result A) (s : St) : of_result r s = (r, s).
Proof. done. Qed.

End monad_facts.

(** ** SpatialJitter *)

Section claims_jitter.
Context `{Random} `{Scalars} `{!Functional} `{!Libm} `{!Images}.

Lemma with_random_run {A} (m : M rng A) w r s' :
  m (random w) = (r, s') → with_random m w = (r, set_random s' w).
Proof. intros Hm. unfold with_random. by rewrite Hm. Qed.

Lemma slice_indices_window len a b :
  0 ≤ a → a ≤ b → b ≤ Z.of_nat len →
  slice_indices len (Some a) (Some b) = (Z.to_nat a, Z.to_nat (b - a)).
Proof.
  intros Ha Hab Hb. unfold slice_indices, adjust_bound; simpl.
  destruct (Z.ltb_spec a 0); [lia|]. destruct (Z.ltb_spec b 0); [lia|].
  f_equal; f_equal; lia.
Qed.

Lemma slice_indices_full len : slice_indices len None None = (0%nat, len).
Proof.
  unfold slice_indices, adjust_bound; simpl.
  destruct (Z.ltb_spec (Z.of_nat len) 0); [lia|].
  f_equal; lia.
Qed.

Lemma get_params_spec pixels seed_ s :
  0 ≤ pixels →
  ∃ x0 y0 s', SpatialJitter_get_params pixels seed_ s = (ok (x0, y0), s') ∧
    0 ≤ x0 ≤ pixels ∧ 0 ≤ y0 ≤ pixels.
Proof.
  intros Hp. unfold SpatialJitter_get_params.
  destruct (randint_spec 0 pixels (seeded seed_ s)) as (x0 & s1 & Hx & Hx0); [done|].
  destruct (randint_spec 0 pixels s1) as (y0 & s2 & Hy & Hy0); [done|].
  exists x0, y0, s2. split; [|done].
  unfold seeded in Hx. destruct seed_; unfold_monad; unfold seed, put; simpl;
    rewrite Hx, Hy; done.
Qed.

(** The two draws of [get_params], one after the other. *)
Lemma get_params_draws pixels seed_ s :
  0 ≤ pixels →
  ∃ x0 y0 s1 s',
    randint 0 pixels (seeded seed_ s) = (ok x0, s1) ∧
    randint 0 pixels s1 = (ok y0, s') ∧
    SpatialJitter_get_params pixels seed_ s = (ok (x0, y0), s') ∧
    0 ≤ x0 ≤ pixels ∧ 0 ≤ y0 ≤ pixels.
Proof.
  intros Hp. unfold SpatialJitter_get_params.
  destruct (randint_spec 0 pixels (seeded seed_ s)) as (x0 & s1 & Hx & Hx0); [done|].
  destruct (randint_spec 0 pixels s1) as (y0 & s2 & Hy & Hy0); [done|].
  exists x0, y0, s1, s2. split_and!; try done; try lia.
  unfold seeded in Hx. destruct seed_; unfold_monad; unfold seed, put; simpl;
    rewrite Hx, Hy; done.
Qed.

(** C4. For an image of size (C, H, W) and [pixels = p] with
    0 <= p <= min(H, W), [SpatialJitter.__call__] returns the slice
    [img[:, x0 : H-(p-x0), y0 : W-(p-y0)]] at the offsets [get_params]
    returns: [x0] is what [randint(0, p)] draws from the generator (seeded
    first when there is a seed) and [y0] what it draws next, both between 0
    and p.  The slice is a window of size (C, H-p, W-p) of the image,
    whatever the offsets, with the channels as they were, and the call
    leaves the generator where the second draw left it. *)
Theorem spatial_jitter_window (self : SpatialJitter.obj) (img : Tensor)
    (w : World) (C Hh Ww : nat) :
  let p := SpatialJitter._pixels self in
  t_shape img = [C; Hh; Ww] →
  0 ≤ p ≤ Z.of_nat (Hh `min` Ww) →
  ∃ x0 y0 s1 s' out,
    randint 0 p (seeded (SpatialJitter._seed self) (random w)) = (ok x0, s1) ∧
    randint 0 p s1 = (ok y0, s') ∧
    SpatialJitter_get_params p (SpatialJitter._seed self) (random w)
      = (ok (x0, y0), s') ∧
    0 ≤ x0 ≤ p ∧ 0 ≤ y0 ≤ p ∧
    getitem_slices img
      [(None, None); (Some x0, Some (Z.of_nat Hh - (p - x0)));
       (Some y0, Some (Z.of_nat Ww - (p - y0)))] = ok out ∧
    SpatialJitter_call self img w = (ok out, set_random s' w) ∧
    t_shape out = [C; (Hh - Z.to_nat p)%nat; (Ww - Z.to_nat p)%nat] ∧
    ∀ c i j, t_entry out [c; i; j] =
             t_entry img [c; (Z.to_nat x0 + i)%nat; (Z.to_nat y0 + j)%nat].
Proof.
  intros p Hshape Hp.
  destruct (get_params_draws p (SpatialJitter._seed self) (random w))
    as (x0 & y0 & s1 & s' & Hfirst & Hsecond & Hdraw & Hx0 & Hy0); [lia|].
  assert (Hsl : ∃ out, getitem_slices img
      [(None, None); (Some x0, Some (Z.of_nat Hh - (p - x0)));
       (Some y0, Some (Z.of_nat Ww - (p - y0)))] = ok out ∧
      t_shape out = [C; (Hh - Z.to_nat p)%nat; (Ww - Z.to_nat p)%nat] ∧
      ∀ c i j, t_entry out [c; i; j] =
             t_entry img [c; (Z.to_nat x0 + i)%nat; (Z.to_nat y0 + j)%nat]).
  { destruct img as [sh dt dev e]; simpl in Hshape; subst sh.
    unfold getitem_slices; cbn [sliced_shape sliced_index t_shape].
    eexists. split; [reflexivity|]. cbn [t_shape t_entry].
    rewrite slice_indices_full, !slice_indices_window by lia.
    split.
    - cbn. repeat f_equal; lia.
    - intros c i j. cbn. reflexivity. }
  destruct Hsl as (out & Hout & Hsh & Hentry).
  exists x0, y0, s1, s', out. split_and!; try done; try lia.
  unfold SpatialJitter_call, _as_3d, dim. rewrite Hshape.
  rewrite bool_decide_false by done.
  erewrite bind_ok by (apply with_random_run, Hdraw).
  unfold tensor_size. rewrite Hshape. cbn [fst snd].
  erewrite bind_ok by reflexivity.
  erewrite bind_ok by reflexivity.
  rewrite of_result_run. by rewrite <- Hout.
Qed.

End claims_jitter.

(** The window of a 3 x 4 x 5 image for [pixels = 2]. *)
Lemma spatial_jitter_window_witness :
  t_shape (Reference.ramp [3; 4; 5]%nat) = [3; 4; 5]%nat ∧
  0 ≤ 2 ≤ Z.of_nat (4 `min` 5) ∧
  ∃ x0 y0 s1 s' out,
    randint 0 2 (seeded (Some 7) (random Reference.world)) = (ok x0, s1) ∧
    randint 0 2 s1 = (ok y0, s') ∧
    SpatialJitter_get_params 2 (Some 7) (random Reference.world)
      = (ok (x0, y0), s') ∧
    0 ≤ x0 ≤ 2 ∧ 0 ≤ y0 ≤ 2 ∧
    getitem_slices (Reference.ramp [3; 4; 5]%nat)
      [(None, None); (Some x0, Some (4 - (2 - x0)));
       (Some y0, Some (5 - (2 - y0)))] = ok out ∧
    SpatialJitter_call Reference.jitter (Reference.ramp [3; 4; 5]%nat)
      Reference.world = (ok out, set_random s' Reference.world) ∧
    t_shape out = [3; 2; 3]%nat ∧
    ∀ c i j, t_entry out [c; i; j] =
             t_entry (Reference.ramp [3; 4; 5]%nat)
               [c; (Z.to_nat x0 + i)%nat; (Z.to_nat y0 + j)%nat].
Proof.
  split; [reflexivity|]. split; [simpl; lia|].
  apply (spatial_jitter_window Reference.jitter (Reference.ramp [3; 4; 5]%nat)
           Reference.world 3 4 5); [reflexivity | simpl; lia].
Defined.

(** The offsets of that call: seeded with 7, the reference generator draws
    1 and then 2, and the window starts at row 1 and column 2. *)
Example spatial_jitter_offsets :
  (SpatialJitter_get_params 2 (Some 7) (random Reference.world)).1 = ok (1, 2) ∧
  match (SpatialJitter_call Reference.jitter (Reference.ramp [3; 4; 5]%nat)
           Reference.world).1 with
  | inr out => t_shape out = [3; 2; 3]%nat ∧
               t_entry out [0; 0; 0]%nat
                 = t_entry (Reference.ramp [3; 4; 5]%nat) [0; 1; 2]%nat
  | inl _ => False
  end.
Proof. split; [reflexivity|]. vm_compute. split; reflexivity. Qed.

(** ** No call writes an attribute *)

Section claims_frame.
Context `{Random} `{Scalars} `{!Functional} `{!Libm} `{!Images}.


Lemma keeps_bind {A B} (m : M World A) (k : A → M World B) :
  keeps_objects m → (∀ a, keeps_objects (k a)) → keeps_objects (m ≫= k).
Proof.
  intros Hm Hk w. unfold_monad. specialize (Hm w).
  destruct (m w) as [[e|a] w1]; simpl in *; [done|].
  destruct (Hk a w1) as [-> ->]. done.
Qed.

Lemma keeps_mret {A} (a : A) : keeps_objects (mret a).
Proof. done. Qed.

Lemma keeps_throw {A} e : keeps_objects (throw e : M World A).
Proof. done. Qed.

Lemma keeps_of_result {A} (r : result A) : keeps_objects (of_result r).
Proof. done. Qed.

Lemma keeps_with_random {A} (m : M rng A) : keeps_objects (with_random m).
Proof. done. Qed.

Lemma keeps_with_torch_random {A} (m : M torch_rng A) :
  keeps_objects (with_torch_random m).
Proof. done. Qed.

Lemma keeps_list_of xs : keeps_objects (list_of xs).
Proof. intros w. unfold list_of. by destruct (lists w !! xs). Qed.

Lemma keeps_get_object self : keeps_objects (get_object self).
Proof. intros w. unfold get_object. by destruct (objects w !! self). Qed.

Create HintDb keeps.
#[local] Hint Resolve keeps_mret keeps_throw keeps_of_result keeps_with_random
  keeps_with_torch_random keeps_list_of keeps_get_object : keeps.

Ltac keeps_steps :=
  repeat first [ apply keeps_bind; [|intros ?] | solve [auto with keeps] ].

Lemma keeps_RandomScale_call self x : keeps_objects (RandomScale_call self x).
Proof. unfold RandomScale_call. keeps_steps. Qed.

Lemma keeps_RandomRotate_call self x : keeps_objects (RandomRotate_call self x).
Proof. unfold RandomRotate_call. keeps_steps. Qed.

Lemma keeps_RandomAlpha_call self x : keeps_objects (RandomAlpha_call self x).
Proof. unfold RandomAlpha_call. keeps_steps. Qed.

Lemma keeps_SpatialJitter_call self x : keeps_objects (SpatialJitter_call self x).
Proof. unfold SpatialJitter_call. keeps_steps. Qed.

Lemma keeps_Compose_loop invoke transforms x :
  (∀ t y, keeps_objects (invoke t y)) →
  keeps_objects (Compose_loop invoke transforms x).
Proof.
  intros Hinv. revert x.
  induction transforms as [|t rest IH]; intros x; simpl.
  - apply keeps_mret.
  - apply keeps_bind; [apply Hinv | intros y; apply IH].
Qed.

Lemma keeps_call depth self x : keeps_objects (call depth self x).
Proof.
  revert self x. induction depth as [|depth IH]; intros self x; simpl.
  - apply keeps_throw.
  - apply keeps_bind; [apply keeps_get_object|]. intros [c|r|r|r|r].
    + apply keeps_Compose_loop, IH.
    + apply keeps_RandomScale_call.
    + apply keeps_RandomRotate_call.
    + apply keeps_RandomAlpha_call.
    + apply keeps_SpatialJitter_call.
Qed.

(** C7. Calling a transform object, of any of the five classes and with
    any input, leaves the attributes of every transform object as they
    were, and so the lists of scales and angles they refer to; this holds
    when the call raises too. *)
Theorem transforms_keep_their_attributes (depth : nat) (self : loc)
    (x : Tensor) (w : World) :
  objects (call depth self x w).2 = objects w ∧
  lists (call depth self x w).2 = lists w.
Proof. apply keeps_call. Qed.

End claims_frame.

(** ** RandomRotate.__init__ *)

Section claims_init.
Context `{Random} `{Scalars} `{!Functional} `{!Libm} `{!Images}.


Lemma set_lists_set_lists l1 l2 w : set_lists l2 (set_lists l1 w) = set_lists l2 w.
Proof. done. Qed.

(** One turn of the loop rewrites the entry at [k]. *)
Lemma convert_step angles (l : list float) (k : nat) a w :
  lists w !! angles = Some l →
  l !! k = Some a →
  (l ← list_of angles;
   a ← of_result (list_getitem l (Z.of_nat k));
   list_setitem angles (Z.of_nat k) (math_pi * a / 180)%float) w =
  (ok tt, set_lists (<[angles := <[k := to_radians a]> l]> (lists w)) w).
Proof.
  intros Hl Ha.
  assert (Hk : (k < length l)%nat) by (eapply lookup_lt_Some; eauto).
  erewrite bind_ok by (unfold list_of; rewrite Hl; reflexivity).
  destruct (list_getitem_in_range l (Z.of_nat k)) as (a' & Hget & Ha'); [lia|].
  rewrite Nat2Z.id in Ha'. assert (a' = a) as -> by congruence.
  erewrite bind_ok by (rewrite of_result_run, Hget; reflexivity).
  unfold list_setitem. rewrite Hl, index_of_in_range by lia.
  unfold ok. by rewrite Nat2Z.id.
Qed.

(** The loop from entry [k] on, when the entries before [k] are converted. *)
Lemma convert_loop angles (l : list float) (n k : nat) w :
  (k + n)%nat = length l →
  lists w !! angles = Some ((to_radians <$> take k l) ++ drop k l) →
  for_range (Z.of_nat k) n (λ i,
    l ← list_of angles;
    a ← of_result (list_getitem l i);
    list_setitem angles i (math_pi * a / 180)%float) w =
  (ok tt, set_lists (<[angles := to_radians <$> l]> (lists w)) w).
Proof.
  revert k w. induction n as [|n IH]; intros k w Hlen Hcur; simpl.
  - rewrite take_ge, drop_ge, app_nil_r in Hcur by lia.
    rewrite insert_id by done. by destruct w.
  - destruct (lookup_lt_is_Some_2 l k) as [a Ha]; [lia|].
    erewrite bind_ok; cycle 1.
    { apply (convert_step angles ((to_radians <$> take k l) ++ drop k l) k a); [done|].
      rewrite lookup_app_r; rewrite length_fmap, length_take_le by lia; [|done].
      by rewrite Nat.sub_diag, lookup_drop, Nat.add_0_r. }
    replace (Z.of_nat k + 1) with (Z.of_nat (S k)) by lia.
    rewrite IH; [| lia |].
    + simpl. rewrite set_lists_set_lists. by rewrite insert_insert_eq.
    + simpl. rewrite lookup_insert_eq. f_equal.
      rewrite (take_S_r _ _ a), fmap_app by done. simpl.
      rewrite insert_app_r_alt; rewrite length_fmap, length_take_le by lia; [|done].
      rewrite Nat.sub_diag. rewrite (drop_S _ a k) by done. simpl.
      by rewrite <- app_assoc.
Qed.

(** C9. [RandomRotate.__init__] keeps the reference to the caller's list as
    [_angles]; when the lower-cased units are 'degrees', 'degs' or 'deg' it
    overwrites every entry [a] of that list by [pi * a / 180], and for any
    other units it leaves the list as it is. *)
Theorem init_converts_in_place (self angles : loc) (units mode padding_mode : string)
    (seed_ : option Z) (w : World) (l : list float) :
  lists w !! angles = Some l →
  let r := RandomRotate_init self angles units mode padding_mode seed_ w in
  r.1 = ok tt ∧
  objects r.2 = <[self := a_RandomRotate
                    {| RandomRotate._angles := angles;
                       RandomRotate._mode := mode;
                       RandomRotate._padding_mode := padding_mode;
                       RandomRotate._seed := seed_ |}]> (objects w) ∧
  lists r.2 =
    (if bool_decide (lower units ∈ ["degrees"; "degs"; "deg"])
     then <[angles := (λ a, math_pi * a / 180)%float <$> l]> (lists w)
     else lists w).
Proof.
  intros Hl r. subst r. unfold RandomRotate_init.
  case_bool_decide.
  - erewrite bind_ok; cycle 1.
    { erewrite bind_ok by (unfold list_of; rewrite Hl; reflexivity).
      apply (convert_loop angles l (length l) 0); [done|].
      by rewrite take_0, drop_0. }
    done.
  - done.
Qed.

End claims_init.

(** The list [0; 90; 180] of the example world, given in degrees. *)
Lemma init_converts_in_place_witness :
  lists Reference.world !! 1%positive = Some [0; 90; 180]%float ∧
  let r := RandomRotate_init 20%positive 1%positive "Degrees" "bilinear"
             "zeros" None Reference.world in
  r.1 = ok tt ∧
  objects r.2 = <[20%positive := a_RandomRotate
                    {| RandomRotate._angles := 1%positive;
                       RandomRotate._mode := "bilinear";
                       RandomRotate._padding_mode := "zeros";
                       RandomRotate._seed := None |}]> (objects Reference.world) ∧
  lists r.2 =
    (if bool_decide (lower "Degrees" ∈ ["degrees"; "degs"; "deg"])
     then <[1%positive := (λ a, math_pi * a / 180)%float <$> [0; 90; 180]%float]>
            (lists Reference.world)
     else lists Reference.world).
Proof.
  split; [reflexivity|].
  apply (init_converts_in_place 20%positive 1%positive "Degrees" "bilinear"
           "zeros" None Reference.world [0; 90; 180]%float).
  reflexivity.
Defined.

(** ** RandomRotate.__call__ *)

Section claims_rotate.
Context `{Random} `{Scalars} `{!Functional} `{!Libm} `{!Images}.


Lemma rotation_theta_spec (x : Tensor) (a : float) :
  is_infinity a = false →
  ∃ theta,
    rotation_theta x a = ok theta ∧
    t_shape theta = [1; 2; 3]%nat ∧
    t_dtype theta = t_dtype x ∧
    t_device theta = t_device x ∧
    t_entry theta [0; 0; 0]%nat = of_number (t_dtype x) (libm_cos a) ∧
    t_entry theta [0; 0; 1]%nat = of_number (t_dtype x) (libm_sin a) ∧
    t_entry theta [0; 0; 2]%nat = of_number (t_dtype x) 0 ∧
    t_entry theta [0; 1; 0]%nat = of_number (t_dtype x) (- libm_sin a) ∧
    t_entry theta [0; 1; 1]%nat = of_number (t_dtype x) (libm_cos a) ∧
    t_entry theta [0; 1; 2]%nat = of_number (t_dtype x) 0.
Proof.
  intros Ha. unfold rotation_theta, math_cos, math_sin. rewrite Ha.
  eexists. split; [reflexivity|]. split_and!; reflexivity.
Qed.

Lemma rotation_theta_infinite (x : Tensor) (a : float) :
  is_infinity a = true → rotation_theta x a = raise ValueError.
Proof. intros Ha. unfold rotation_theta, math_cos. by rewrite Ha. Qed.



(** The call once the angle is drawn, on any input. *)
Lemma RandomRotate_call_drawn (self : RandomRotate.obj) (x : Tensor) (w : World)
    (angles : list float) (a : float) (s' : rng) :
  lists w !! RandomRotate._angles self = Some angles →
  RandomRotate_get_params angles (RandomRotate._seed self) (random w) = (ok a, s') →
  RandomRotate_call self x w =
    (theta ← rotation_theta (_as_4d x) a;
     y ← sampled self (_as_4d x) theta;
     ok (_as_3d y),
     set_random s' w).
Proof.
  intros Hl Hdraw. unfold RandomRotate_call.
  erewrite bind_ok by (unfold list_of; rewrite Hl; reflexivity).
  erewrite bind_ok by (apply with_random_run, Hdraw).
  unfold sampled. unfold_monad.
  destruct (rotation_theta (_as_4d x) a) as [e|theta]; [done|].
  destruct (affine_grid theta _) as [e|grid]; [done|]. simpl.
  by destruct (grid_sample _ grid _ _).
Qed.


End claims_rotate.




(** An infinite angle, and a batch of two images. *)
Example rotate_raises :
  (RandomRotate_call Reference.rotate (Reference.ramp [1; 1; 2; 2]%nat)
     (set_lists {[ 1%positive := [infinity] ]} Reference.world)).1
    = raise ValueError ∧
  (RandomRotate_call Reference.rotate (Reference.ramp [2; 1; 2; 2]%nat)
     Reference.world).1 = raise RuntimeError.
Proof. split; reflexivity. Qed.

(** ** Broadcasting and element-wise operations *)

Section tensor_facts.
Context `{Scalars}.

Lemma broadcast_rev_same (s : list nat) : broadcast_rev s s = ok s.
Proof.
  induction s as [|d s IH]; [done|]. simpl. rewrite IH. unfold_monad.
  by rewrite bool_decide_true.
Qed.

Lemma broadcast_shapes_same (s : list nat) : broadcast_shapes s s = ok s.
Proof.
  unfold broadcast_shapes. rewrite broadcast_rev_same. unfold_monad.
  by rewrite rev_involutive.
Qed.

Lemma broadcast_rev_last_one (s : list nat) (c : nat) :
  broadcast_rev (s ++ [1%nat]) (s ++ [c]) = ok (s ++ [c]).
Proof.
  induction s as [|d s IH]; simpl.
  - case_bool_decide; [by subst | done].
  - rewrite IH. unfold_monad. by rewrite bool_decide_true.
Qed.

Lemma broadcast_shapes_leading_one (s : list nat) (c : nat) :
  broadcast_shapes (1%nat :: s) (c :: s) = ok (c :: s).
Proof.
  unfold broadcast_shapes. simpl. rewrite broadcast_rev_last_one. unfold_monad.
  by rewrite rev_app_distr, rev_involutive.
Qed.

Lemma broadcast_index_in_range (d0 d1 d2 c i j : nat) :
  (c < d0)%nat → (i < d1)%nat → (j < d2)%nat →
  broadcast_index [d0; d1; d2] [c; i; j] = [c; i; j].
Proof.
  intros Hc Hi Hj. unfold broadcast_index. simpl.
  repeat case_bool_decide; repeat f_equal; lia.
Qed.

Lemma broadcast_index_leading_one (d1 d2 c i j : nat) :
  (i < d1)%nat → (j < d2)%nat →
  broadcast_index [1%nat; d1; d2] [c; i; j] = [0%nat; i; j].
Proof.
  intros Hi Hj. unfold broadcast_index. simpl.
  repeat case_bool_decide; repeat f_equal; lia.
Qed.

Lemma elementwise_same_shape f (x y : Tensor) :
  t_device x = t_device y → t_shape y = t_shape x →
  ∃ z, elementwise f x y = ok z ∧ t_shape z = t_shape x ∧
       t_device z = t_device x ∧
       ∀ idx, t_entry z idx =
              f (t_entry x (broadcast_index (t_shape x) idx))
                (t_entry y (broadcast_index (t_shape x) idx)).
Proof.
  intros Hdev Hsh. unfold elementwise.
  rewrite bool_decide_true by done. rewrite Hsh, broadcast_shapes_same.
  eexists. split; [reflexivity|]. done.
Qed.

Lemma elementwise_leading_one f (x y : Tensor) (s : list nat) (c : nat) :
  t_device x = t_device y → t_shape x = 1%nat :: s → t_shape y = c :: s →
  ∃ z, elementwise f x y = ok z ∧ t_shape z = c :: s ∧
       t_device z = t_device x ∧
       ∀ idx, t_entry z idx =
              f (t_entry x (broadcast_index (1%nat :: s) idx))
                (t_entry y (broadcast_index (c :: s) idx)).
Proof.
  intros Hdev Hx Hy. unfold elementwise.
  rewrite bool_decide_true by done. rewrite Hx, Hy, broadcast_shapes_leading_one.
  eexists. split; [reflexivity|]. done.
Qed.

End tensor_facts.

(** ** RandomAlpha *)

Section claims_alpha.
Context `{Random} `{Scalars} `{!Functional} `{!Libm} `{!Images}.

Lemma with_torch_random_run {A} (m : M torch_rng A) w r s' :
  m (torch_random w) = (r, s') →
  with_torch_random m w = (r, set_torch_random s' w).
Proof. intros Hm. unfold with_torch_random. by rewrite Hm. Qed.

(** [x[-1]] *)
Lemma last_channel (x : Tensor) (C Hh Ww : nat) :
  t_shape x = [C; Hh; Ww] → (1 ≤ C)%nat →
  ∃ last, select0 x (-1) = ok last ∧
    t_shape last = [Hh; Ww] ∧ t_device last = t_device x ∧
    t_dtype last = t_dtype x ∧
    ∀ idx, t_entry last idx = t_entry x ((C - 1)%nat :: idx).
Proof.
  intros Hx HC. unfold select0. rewrite Hx.
  assert (index_of C (-1) = ok (C - 1)%nat) as ->.
  { unfold index_of. simpl.
    destruct (Z.leb_spec 0 (-1 + Z.of_nat C)); [|lia].
    destruct (Z.ltb_spec (-1 + Z.of_nat C) (Z.of_nat C)); [|lia].
    simpl. unfold ok. do 2 f_equal. lia. }
  eexists. split; [reflexivity|]. done.
Qed.

(** [last.repeat(c, 1, 1)] *)
Lemma repeat_channels (last : Tensor) (c : Z) (Hh Ww : nat) :
  t_shape last = [Hh; Ww] → 0 ≤ c →
  ∃ alpha, tensor_repeat last [c; 1; 1] = ok alpha ∧
    t_shape alpha = [Z.to_nat c; Hh; Ww] ∧ t_device alpha = t_device last ∧
    t_dtype alpha = t_dtype last ∧
    ∀ k i j, (i < Hh)%nat → (j < Ww)%nat →
      t_entry alpha [k; i; j] = t_entry last [i; j].
Proof.
  intros Hl Hc. unfold tensor_repeat, dim. rewrite Hl.
  rewrite bool_decide_true; cycle 1.
  { split; [|simpl; lia]. repeat constructor; lia. }
  eexists. split; [reflexivity|]. simpl. split_and!; try done.
  - by rewrite Nat.mul_1_r, !Nat.add_0_r.
  - intros k i j Hi Hj. by rewrite !Nat.mod_small.
Qed.

(** [x[:-1]] *)
Lemma front_channels (x : Tensor) (C Hh Ww : nat) :
  t_shape x = [C; Hh; Ww] → (1 ≤ C)%nat →
  ∃ front, getitem_slices x [(None, Some (-1))] = ok front ∧
    t_shape front = [(C - 1)%nat; Hh; Ww] ∧ t_device front = t_device x ∧
    t_dtype front = t_dtype x ∧
    ∀ c i j, t_entry front [c; i; j] = t_entry x [c; i; j].
Proof.
  intros Hx HC. unfold getitem_slices. rewrite Hx.
  assert (slice_indices C None (Some (-1)) = (0%nat, (C - 1)%nat)) as Hs.
  { unfold slice_indices, adjust_bound. simpl.
    destruct (Z.ltb_spec (Z.of_nat C) 0); [lia|]. f_equal; lia. }
  cbn [sliced_shape]. rewrite Hs.
  eexists. split; [reflexivity|].
  cbn [t_shape t_entry t_device t_dtype sliced_index]. split_and!; try done.
  intros c i j. by rewrite Hs.
Qed.

Lemma as_3d_of_3d (x : Tensor) : dim x = 3%nat → _as_3d x = x.
Proof. intros Hd. unfold _as_3d. by rewrite Hd, bool_decide_false. Qed.

(** C5. For an input of size (C, H, W) with C >= 2 and the random FFT image
    [r] synthesized on the device of the input, [RandomAlpha.__call__]
    returns [x[:-1] * alpha + r * (1 - alpha)], where [alpha] is the last
    channel of [x] repeated over C-1 channels: at every position the entry
    of a channel of [x] weighted by the last channel plus the entry of [r]
    weighted by one minus the last channel.  The output has size (C-1, H, W). *)
Theorem alpha_composite (self : RandomAlpha.obj) (x : Tensor) (w : World)
    (C Hh Ww : nat) (r : Tensor) (s' : torch_rng) :
  t_shape x = [C; Hh; Ww] →
  (2 ≤ C)%nat →
  fft_valid_image
    [if RandomAlpha._colour self then Z.of_nat C - 1 else 1;
     Z.of_nat Hh; Z.of_nat Ww]
    (RandomAlpha._colour self) (RandomAlpha._sd self)
    (RandomAlpha._decay_power self) (t_device x) (torch_random w) = (ok r, s') →
  ∃ last alpha front image random_image out,
    select0 x (-1) = ok last ∧
    tensor_repeat last [Z.of_nat C - 1; 1; 1] = ok alpha ∧
    getitem_slices x [(None, Some (-1))] = ok front ∧
    tensor_mul front alpha = ok image ∧
    tensor_mul r (rsub 1 alpha) = ok random_image ∧
    tensor_add image random_image = ok out ∧
    RandomAlpha_call self x w = (ok out, set_torch_random s' w) ∧
    t_device r = t_device x ∧
    t_shape out = [(C - 1)%nat; Hh; Ww] ∧
    ∀ c i j, (c < C - 1)%nat → (i < Hh)%nat → (j < Ww)%nat →
      t_entry out [c; i; j] =
        s_add
          (s_mul (t_entry x [c; i; j]) (t_entry x [(C - 1)%nat; i; j]))
          (s_mul (t_entry r [if RandomAlpha._colour self then c else 0%nat; i; j])
             (s_sub (of_number (t_dtype x) 1) (t_entry x [(C - 1)%nat; i; j]))).
Proof.
  intros Hx HC Hfft.
  destruct (fft_valid_image_shape _ _ _ _ _ _ _ _ Hfft) as [Hrs Hrd].
  destruct (last_channel x C Hh Ww Hx) as (last & Hlast & Hls & Hld & Hlt & Hle); [lia|].
  destruct (repeat_channels last (Z.of_nat C - 1) Hh Ww Hls)
    as (alpha & Halpha & Has & Had & Hat & Hae); [lia|].
  replace (Z.to_nat (Z.of_nat C - 1)) with (C - 1)%nat in Has by lia.
  destruct (front_channels x C Hh Ww Hx) as (front & Hfront & Hfs & Hfd & Hft & Hfe); [lia|].
  destruct (elementwise_same_shape s_mul front alpha)
    as (image & Himage & His & Hid & Hie); [congruence | congruence |].
  change (tensor_mul front alpha = ok image) in Himage.
  assert (∃ random_image, tensor_mul r (rsub 1 alpha) = ok random_image ∧
            t_shape random_image = [(C - 1)%nat; Hh; Ww] ∧
            t_device random_image = t_device x ∧
            ∀ c i j, (c < C - 1)%nat → (i < Hh)%nat → (j < Ww)%nat →
              t_entry random_image [c; i; j] =
                s_mul (t_entry r [if RandomAlpha._colour self then c else 0%nat; i; j])
                  (s_sub (of_number (t_dtype x) 1) (t_entry x [(C - 1)%nat; i; j])))
    as (random_image & Hrandom & Hqs & Hqd & Hqe).
  { destruct (RandomAlpha._colour self); simpl in Hrs.
    - replace (Z.to_nat (Z.of_nat C - 1)) with (C - 1)%nat in Hrs by lia.
      rewrite !Nat2Z.id in Hrs.
      destruct (elementwise_same_shape s_mul r (rsub 1 alpha))
        as (q & Hq & Hqs & Hqd & Hqe); [simpl; congruence | simpl; congruence |].
      exists q. split_and!; [done | congruence | congruence |].
      intros c i j Hc Hi Hj. rewrite Hqe, Hrs, broadcast_index_in_range by done.
      simpl. by rewrite Hae, Hle, Hat, Hlt.
    - rewrite !Nat2Z.id in Hrs. change (Z.to_nat 1) with 1%nat in Hrs.
      destruct (elementwise_leading_one s_mul r (rsub 1 alpha) [Hh; Ww] (C - 1)%nat)
        as (q & Hq & Hqs & Hqd & Hqe); [simpl; congruence | done | done |].
      exists q. split_and!; [done | done | congruence |].
      intros c i j Hc Hi Hj.
      rewrite Hqe, broadcast_index_leading_one, broadcast_index_in_range by done.
      simpl. by rewrite Hae, Hle, Hat, Hlt. }
  destruct (elementwise_same_shape s_add image random_image)
    as (out & Hout & Hos & Hod & Hoe); [congruence | congruence |].
  change (tensor_add image random_image = ok out) in Hout.
  exists last, alpha, front, image, random_image, out.
  split_and!; try done; try congruence.
  - unfold RandomAlpha_call. rewrite as_3d_of_3d by (unfold dim; by rewrite Hx).
    rewrite Hx. cbn [fmap list_fmap].
    destruct (RandomAlpha._colour self).
    all: erewrite bind_ok by (rewrite of_result_run; reflexivity).
    all: erewrite bind_ok by reflexivity.
    all: cbn [insert list_insert].
    all: erewrite bind_ok by (apply with_torch_random_run; exact Hfft).
    all: unfold tensor_size; rewrite Hx.
    all: erewrite bind_ok
           by (rewrite of_result_run, Hlast; unfold_monad; simpl;
               rewrite Halpha; reflexivity).
    all: erewrite bind_ok
           by (rewrite of_result_run, Hfront; unfold_monad;
               rewrite Himage; reflexivity).
    all: erewrite bind_ok by (rewrite of_result_run, Hrandom; reflexivity).
    all: by rewrite of_result_run, Hout.
  - intros c i j Hc Hi Hj.
    rewrite Hoe, His, Hfs, broadcast_index_in_range by done.
    rewrite Hie, Hfs, broadcast_index_in_range by done.
    by rewrite Hfe, Hae, Hle, Hqe.
Qed.

End claims_alpha.

(** The composite of a 3 x 2 x 2 image with the image the reference
    generator draws. *)
Lemma alpha_composite_witness :
  t_shape (Reference.ramp [3; 2; 2]%nat) = [3; 2; 2]%nat ∧
  (2 ≤ 3)%nat ∧
  ∃ r s' out,
    fft_valid_image [2; 2; 2] true 0.5%float 1%float cpu
      (torch_random Reference.world) = (ok r, s') ∧
    RandomAlpha_call Reference.alpha (Reference.ramp [3; 2; 2]%nat)
      Reference.world = (ok out, set_torch_random s' Reference.world) ∧
    t_shape out = [2; 2; 2]%nat.
Proof.
  split; [reflexivity|]. split; [lia|].
  eexists _, _.
  destruct (alpha_composite Reference.alpha (Reference.ramp [3; 2; 2]%nat)
              Reference.world 3 2 2 _ _ eq_refl (le_S _ _ (le_n 2)) eq_refl)
    as (_ & _ & _ & _ & _ & out & _ & _ & _ & _ & _ & _ & Hcall & _ & Hshape & _).
  exists out. split; [reflexivity|]. split; [exact Hcall | exact Hshape].
Defined.

(** ** Storer and storer *)

Section claims_storing.
Context `{Countable K} {V : Type}.

(** C2. [Storer(save_state, name).forward(x)] returns [x] and leaves [x]
    under [name] in the dictionary [save_state] refers to; the other keys of
    that dictionary and the other dictionaries are as they were. *)
Theorem forward_saves_and_returns (dicts : gmap loc (gmap K V))
    (save_state : loc) (name : K) (x : V) (d : gmap K V) :
  dicts !! save_state = Some d →
  let r := Storer_forward (Storer_init save_state name) x dicts in
  r.1 = ok x ∧
  r.2 !! save_state = Some (<[name := x]> d) ∧
  <[name := x]> d !! name = Some x ∧
  (∀ k, k ≠ name → <[name := x]> d !! k = d !! k) ∧
  (∀ l, l ≠ save_state → r.2 !! l = dicts !! l).
Proof.
  intros Hd r. subst r. unfold Storer_forward, Storer_init. simpl. rewrite Hd. simpl.
  split_and!.
  - done.
  - by rewrite lookup_insert_eq.
  - by rewrite lookup_insert_eq.
  - intros k Hk. by rewrite lookup_insert_ne.
  - intros l Hl. by rewrite lookup_insert_ne.
Qed.

(** C10. [storer] returns [x], and afterwards the state holds under
    [LAYER_DICT] a dictionary that maps [name] to [x].  When
    [state[LAYER_DICT][name] = x] raises (the key is absent, or what is
    stored under it does not take the assignment) that dictionary is the new
    dictionary [{name: x}]; when it does not raise, it is the old dictionary
    with [name] set.  Other keys of the state are untouched. *)
Theorem storer_stores (LAYER_DICT name : K) (x : V) (state : gmap K (slot K V)) :
  (storer LAYER_DICT name x state).1 = ok x ∧
  (∃ d, (storer LAYER_DICT name x state).2 !! LAYER_DICT = Some (a_dict d) ∧
        d !! name = Some x) ∧
  (∀ e, storer_try LAYER_DICT state name x = inl e →
        (state !! LAYER_DICT = None ∨
         ∃ v, state !! LAYER_DICT = Some (not_a_dict v)) ∧
        (storer LAYER_DICT name x state).2 =
          <[LAYER_DICT := a_dict {[name := x]}]> state) ∧
  (∀ d, state !! LAYER_DICT = Some (a_dict d) →
        (storer LAYER_DICT name x state).2 =
          <[LAYER_DICT := a_dict (<[name := x]> d)]> state) ∧
  (∀ k, k ≠ LAYER_DICT →
        (storer LAYER_DICT name x state).2 !! k = state !! k).
Proof.
  unfold storer, storer_try.
  destruct (state !! LAYER_DICT) as [[d|v]|] eqn:Hs; simpl.
  - split_and!; try done.
    + exists (<[name := x]> d). by rewrite !lookup_insert_eq.
    + by intros d' [= ->].
    + intros k Hk. by rewrite lookup_insert_ne.
  - split_and!; try done.
    + exists {[name := x]}. by rewrite lookup_insert_eq, lookup_singleton_eq.
    + intros e _. split; [right; by exists v | done].
    + intros k Hk. by rewrite lookup_insert_ne.
  - split_and!; try done.
    + exists {[name := x]}. by rewrite lookup_insert_eq, lookup_singleton_eq.
    + intros e _. split; [by left | done].
    + intros k Hk. by rewrite lookup_insert_ne.
Qed.

End claims_storing.

(** An activation saved under "conv1" beside one saved before. *)
Lemma forward_saves_and_returns_witness :
  ({[ 5%positive := {[ "fc" := 1%nat ]} ]} : gmap loc (gmap string nat))
    !! 5%positive = Some {[ "fc" := 1%nat ]} ∧
  let r := Storer_forward (Storer_init 5%positive "conv1") 7%nat
             ({[ 5%positive := {[ "fc" := 1%nat ]} ]} : gmap loc (gmap string nat)) in
  r.1 = ok 7%nat ∧
  r.2 !! 5%positive = Some (<["conv1" := 7%nat]> {[ "fc" := 1%nat ]}).
Proof.
  assert (Hd : ({[ 5%positive := {[ "fc" := 1%nat ]} ]} : gmap loc (gmap string nat))
                 !! 5%positive = Some {[ "fc" := 1%nat ]}) by reflexivity.
  split; [exact Hd|].
  destruct (forward_saves_and_returns _ 5%positive "conv1" 7%nat _ Hd)
    as (Hret & Hsaved & _).
  split; [exact Hret | exact Hsaved].
Defined.

(** ** basemodel and relus_to_not_inplace *)

Section modules_facts.
Local Open Scope nat_scope.

Implicit Types h : gmap loc module.


Lemma same_structure_trans h1 h2 h3 :
  same_structure h1 h2 → same_structure h2 h3 → same_structure h1 h3.
Proof.
  intros H12 H23 l. destruct (H12 l) as [-> ->]. apply H23.
Qed.

Lemma same_structure_is_Some h h' l :
  same_structure h h' → is_Some (h !! l) → is_Some (h' !! l).
Proof.
  intros Hs [m Hm]. destruct (Hs l) as [Ht _]. rewrite Hm in Ht.
  destruct (h' !! l); [by eexists | done].
Qed.

Lemma same_structure_size h h' : same_structure h h' → size h = size h'.
Proof.
  intros Hs. rewrite <- !size_dom. f_equal. apply set_eq. intros l.
  rewrite !elem_of_dom. destruct (Hs l) as [Ht _].
  destruct (h !! l), (h' !! l); simpl in Ht; try done; split; intros [? ?]; done.
Qed.

Lemma visit_children_ext visit visit' children memo :
  (∀ c m, visit c m = visit' c m) →
  visit_children visit children memo = visit_children visit' children memo.
Proof.
  intros Hv. revert memo.
  induction children as [|[name [c|]] rest IH]; intros memo; simpl; [done| |done].
  rewrite Hv. destruct (visit' c memo) as [r|]; simpl; [|done]. by rewrite IH.
Qed.

Lemma named_modules_same_structure fuel h h' self memo :
  same_structure h h' →
  named_modules fuel h self memo = named_modules fuel h' self memo.
Proof.
  intros Hs. revert self memo.
  induction fuel as [|fuel IH]; intros self memo; simpl; [done|].
  case_decide; [done|]. destruct (Hs self) as [_ Hc].
  destruct (h !! self) as [m|], (h' !! self) as [m'|]; simpl in *; try done.
  injection Hc as ->. by rewrite (visit_children_ext _ _ _ _ (IH)).
Qed.

Lemma modules_same_structure h h' model :
  same_structure h h' → modules h model = modules h' model.
Proof.
  intros Hs. unfold modules.
  by rewrite (same_structure_size _ _ Hs), (named_modules_same_structure _ _ _ _ _ Hs).
Qed.

(** Every reference the generator yields points to an object. *)
Lemma visit_children_allocated h visit children memo r :
  (∀ c m r', visit c m = Some r' → Forall (λ l, is_Some (h !! l)) r'.1) →
  visit_children visit children memo = Some r →
  Forall (λ l, is_Some (h !! l)) r.1.
Proof.
  intros Hv. revert memo r.
  induction children as [|[name [c|]] rest IH]; intros memo r; simpl.
  - by intros [= <-].
  - destruct (visit c memo) as [r1|] eqn:H1; simpl; [|done].
    destruct (visit_children visit rest r1.2) as [r2|] eqn:H2; simpl; [|done].
    intros [= <-]. simpl. apply Forall_app. split; [by eapply Hv | by eapply IH].
  - apply IH.
Qed.

Lemma named_modules_allocated fuel h self memo r :
  named_modules fuel h self memo = Some r →
  Forall (λ l, is_Some (h !! l)) r.1.
Proof.
  revert self memo r.
  induction fuel as [|fuel IH]; intros self memo r; simpl; [done|].
  case_decide; [by intros [= <-]|].
  destruct (h !! self) as [m|] eqn:Hm; simpl; [|done].
  destruct (visit_children _ _ _) as [r1|] eqn:H1; simpl; [|done].
  intros [= <-]. simpl. constructor; [by eexists|].
  eapply visit_children_allocated; [|done]. intros c m' r'. apply IH.
Qed.

(** The traversal of a closed store returns: a nested call either finds its
    module in the memo or adds it, so the number of objects outside the memo
    bounds the depth of the calls still to come. *)
Lemma visit_children_total h visit children memo (bound : nat) :
  (∀ c m, is_Some (h !! c) → size (dom h ∖ m) ≤ bound →
     ∃ r, visit c m = Some r ∧ m ⊆ r.2) →
  Forall (λ c, from_option (λ l, is_Some (h !! l)) True c.2) children →
  size (dom h ∖ memo) ≤ bound →
  ∃ r, visit_children visit children memo = Some r ∧ memo ⊆ r.2.
Proof.
  intros Hv Hall. revert memo.
  induction Hall as [|[name [c|]] rest Hc Hrest IH]; intros memo Hsize; simpl.
  - by eexists.
  - destruct (Hv c memo) as (r1 & -> & Hsub1); [done..|]. simpl.
    destruct (IH r1.2) as (r2 & -> & Hsub2).
    { etrans; [|exact Hsize]. apply subseteq_size.
      by apply difference_mono. }
    simpl. eexists. split; [done|]. simpl. by etrans.
  - by apply IH.
Qed.

Lemma named_modules_total fuel h self memo :
  closed h → is_Some (h !! self) →
  (size (dom h ∖ memo) < fuel)%nat →
  ∃ r, named_modules fuel h self memo = Some r ∧ memo ⊆ r.2.
Proof.
  intros Hclosed. revert self memo.
  induction fuel as [|fuel IH]; intros self memo [m Hm] Hsize; [lia|]. simpl.
  case_decide as Hin; [by eexists|]. rewrite Hm. simpl.
  assert (size (dom h ∖ ({[self]} ∪ memo)) < size (dom h ∖ memo))%nat as Hlt.
  { apply subset_size. split.
    - apply difference_mono; [done | apply union_subseteq_r].
    - intros Hsub. assert (self ∈ dom h ∖ memo) as Hself.
      { apply elem_of_difference. split; [by apply elem_of_dom|done]. }
      apply Hsub, elem_of_difference in Hself as [_ Hnot].
      apply Hnot, elem_of_union_l, elem_of_singleton. done. }
  destruct (visit_children_total h (named_modules fuel h) (m_modules m)
              ({[self]} ∪ memo) (size (dom h ∖ ({[self]} ∪ memo))))
    as (r & -> & Hsub).
  - intros c m' Hc Hsz. apply IH; [done|lia].
  - by eapply (Hclosed self m).
  - done.
  - simpl. eexists. split; [done|]. simpl.
    etrans; [apply union_subseteq_r | done].
Qed.

Lemma modules_total h model :
  closed h → is_Some (h !! model) →
  ∃ ms, modules h model = Some ms ∧ Forall (λ l, is_Some (h !! l)) ms.
Proof.
  intros Hclosed Hmodel. unfold modules.
  destruct (named_modules_total (S (size h)) h model ∅ Hclosed Hmodel)
    as (r & Hr & _).
  { rewrite difference_empty_L, size_dom. lia. }
  rewrite Hr. simpl. eexists. split; [done|]. by eapply named_modules_allocated.
Qed.

End modules_facts.

Section claims_modules.
Context {Args : Type}.

Implicit Types h : gmap loc module.


Lemma setattr_run self name v h m :
  h !! self = Some m →
  setattr self name v h =
    (ok tt, <[self := {| m_type := m_type m;
                         m_attrs := <[name := v]> (m_attrs m);
                         m_modules := m_modules m |}]> h).
Proof. intros Hm. unfold setattr. by rewrite Hm. Qed.

Lemma setattr_same_structure self name v h m :
  h !! self = Some m →
  same_structure h (setattr self name v h).2.
Proof.
  intros Hm l. rewrite (setattr_run _ _ _ _ _ Hm). simpl.
  destruct (decide (l = self)) as [->|Hne].
  - by rewrite lookup_insert_eq, Hm.
  - by rewrite lookup_insert_ne.
Qed.

Lemma setattr_other_keeps self name v h m m' :
  h !! self = Some m → name ≠ "inplace" →
  inplace_off h m' → inplace_off (setattr self name v h).2 m'.
Proof.
  intros Hm Hname Hoff o. rewrite (setattr_run _ _ _ _ _ Hm). simpl.
  destruct (decide (m' = self)) as [->|Hne].
  - rewrite lookup_insert_eq. intros [= <-]. simpl. intros Hty.
    rewrite lookup_insert_ne by done. by apply Hoff.
  - rewrite lookup_insert_ne by done. apply Hoff.
Qed.

(** One turn of the loop. *)
Lemma relu_to_not_inplace_run m h :
  is_Some (h !! m) →
  ∃ h', relu_to_not_inplace m h = (ok tt, h') ∧
    same_structure h h' ∧
    inplace_off h' m ∧
    ∀ m', inplace_off h m' → inplace_off h' m'.
Proof.
  intros [o Ho]. unfold relu_to_not_inplace.
  erewrite bind_ok by (unfold type_of; rewrite Ho; reflexivity).
  case_bool_decide as Hty.
  - rewrite (setattr_run _ _ _ _ _ Ho). eexists. split; [done|]. split_and!.
    + pose proof (setattr_same_structure m "inplace" (VBool false) h o Ho) as Hs.
      by rewrite (setattr_run _ _ _ _ _ Ho) in Hs.
    + intros o'. rewrite lookup_insert_eq. intros [= <-] _. simpl.
      by rewrite lookup_insert_eq.
    + intros m' Hoff o'. destruct (decide (m' = m)) as [->|Hne].
      * rewrite lookup_insert_eq. intros [= <-] _. simpl.
        by rewrite lookup_insert_eq.
      * rewrite lookup_insert_ne by done. apply Hoff.
  - exists h. split_and!; try done. intros o'. rewrite Ho. by intros [= <-].
Qed.

(** The whole loop over the modules [ms]. *)
Lemma for_each_relu_run (ms : list loc) h :
  Forall (λ l, is_Some (h !! l)) ms →
  ∃ h', for_each ms relu_to_not_inplace h = (ok tt, h') ∧
    same_structure h h' ∧
    Forall (inplace_off h') ms ∧
    ∀ m', inplace_off h m' → inplace_off h' m'.
Proof.
  revert h. induction ms as [|m ms IH]; intros h Hall; simpl.
  - exists h. by split_and!.
  - apply Forall_cons in Hall as [Hm Hms].
    destruct (relu_to_not_inplace_run m h Hm) as (h1 & Hrun & Hs1 & Hoff1 & Hkeep1).
    destruct (IH h1) as (h2 & Hloop & Hs2 & Hoff2 & Hkeep2).
    { eapply Forall_impl; [exact Hms|]. intros l. by apply same_structure_is_Some. }
    exists h2. split_and!.
    + by erewrite bind_ok by exact Hrun.
    + by eapply same_structure_trans.
    + constructor; [by apply Hkeep2 | done].
    + intros m' Hoff. by apply Hkeep2, Hkeep1.
Qed.

Lemma relus_to_not_inplace_run h model :
  closed h → is_Some (h !! model) →
  ∃ h' ms, relus_to_not_inplace model h = (ok tt, h') ∧
    same_structure h h' ∧
    modules h' model = Some ms ∧
    Forall (inplace_off h') ms.
Proof.
  intros Hclosed Hmodel.
  destruct (modules_total h model Hclosed Hmodel) as (ms & Hms & Hall).
  destruct (for_each_relu_run ms h Hall) as (h' & Hloop & Hs & Hoff & _).
  exists h', ms. unfold relus_to_not_inplace. rewrite Hms. split_and!; try done.
  by rewrite <- (modules_same_structure h h' model Hs).
Qed.

(** C1. When the constructor of [model] returns on the new object [self],
    [BaseModel.__init__] of [basemodel(model)] runs [relus_to_not_inplace]
    on it and returns, and afterwards every module of the model
    ([self.modules()]) whose class is exactly one of ReLU, ReLU6, LeakyReLU,
    RReLU, PReLU has its attribute [inplace] equal to [False]. *)
Theorem basemodel_disables_inplace (model : @model_class Args) (self : loc)
    (layer_names : list string) (args : Args) (h h1 : gmap loc module) :
  __init__ model self args h = (ok tt, h1) →
  closed h1 →
  is_Some (h1 !! self) →
  ∃ h2 h' ms,
    relus_to_not_inplace self h1 = (ok tt, h2) ∧
    BaseModel_init model self layer_names args h = (ok tt, h') ∧
    modules h' self = Some ms ∧
    ∀ m o, m ∈ ms → h' !! m = Some o → m_type o ∈ _relu_classes →
           m_attrs o !! "inplace" = Some (VBool false).
Proof.
  intros Hinit Hclosed Hself.
  destruct (relus_to_not_inplace_run h1 self Hclosed Hself)
    as (h2 & ms & Hrelus & Hs2 & Hms & Hoff).
  destruct (same_structure_is_Some _ _ _ Hs2 Hself) as [o2 Ho2].
  pose proof (setattr_run self "layer_names" (VList layer_names) h2 o2 Ho2) as Hrun3.
  set (h3 := (setattr self "layer_names" (VList layer_names) h2).2).
  assert (∃ o3, h3 !! self = Some o3) as [o3 Ho3].
  { subst h3. rewrite Hrun3. simpl. rewrite lookup_insert_eq. by eexists. }
  pose proof (setattr_run self "__name__" (VStr (__name__ model)) h3 o3 Ho3) as Hrun4.
  set (h4 := (setattr self "__name__" (VStr (__name__ model)) h3).2).
  assert (∃ o4, h4 !! self = Some o4) as [o4 Ho4].
  { subst h4. rewrite Hrun4. simpl. rewrite lookup_insert_eq. by eexists. }
  pose proof (setattr_run self "__qualname__" (VStr (__qualname__ model)) h4 o4 Ho4)
    as Hrun5.
  set (h5 := (setattr self "__qualname__" (VStr (__qualname__ model)) h4).2).
  assert (same_structure h2 h5) as Hs5.
  { eapply same_structure_trans; [by eapply setattr_same_structure|].
    eapply same_structure_trans; by eapply setattr_same_structure. }
  exists h2, h5, ms. split_and!.
  - done.
  - unfold BaseModel_init.
    erewrite bind_ok by exact Hinit.
    erewrite bind_ok by exact Hrelus.
    erewrite bind_ok by (rewrite Hrun3; reflexivity).
    erewrite bind_ok; cycle 1.
    { fold h3 in Hrun3 |- *. replace (<[self:=_]> h2) with h3; [|by subst h3; rewrite Hrun3].
      rewrite Hrun4. reflexivity. }
    replace (<[self:=_]> h3) with h4 by (by subst h4; rewrite Hrun4).
    subst h5. by destruct (setattr self "__qualname__" _ h4) as [[e|[]] ?] eqn:E;
      rewrite Hrun5 in E; simplify_eq.
  - by rewrite <- (modules_same_structure h2 h5 self Hs5).
  - intros m o Hm. rewrite Forall_forall in Hoff.
    assert (inplace_off h5 m) as Hfin; [|apply Hfin].
    subst h5 h4 h3.
    eapply setattr_other_keeps; [done | done |].
    eapply setattr_other_keeps; [done | done |].
    eapply setattr_other_keeps; [done | done |].
    by apply Hoff.
Qed.

End claims_modules.


Lemma basemodel_disables_inplace_witness :
  __init__ Reference.small_net_class 1%positive tt ∅ = (ok tt, (Reference.small_net 1%positive tt ∅).2) ∧
  closed (Reference.small_net 1%positive tt ∅).2 ∧
  is_Some ((Reference.small_net 1%positive tt ∅).2 !! 1%positive) ∧
  ∃ h' ms,
    BaseModel_init Reference.small_net_class 1%positive ["act1"] tt ∅ = (ok tt, h') ∧
    modules h' 1%positive = Some ms ∧
    ∀ m o, m ∈ ms → h' !! m = Some o → m_type o ∈ _relu_classes →
           m_attrs o !! "inplace" = Some (VBool false).
Proof.
  assert (Hclosed : closed (Reference.small_net 1%positive tt ∅).2).
  { unfold closed, Reference.small_net. simpl.
    repeat (apply map_Forall_insert_2; [repeat constructor; by eexists|]).
    apply map_Forall_empty. }
  assert (Hself : is_Some ((Reference.small_net 1%positive tt ∅).2 !! 1%positive))
    by (by eexists).
  split; [reflexivity|]. split; [exact Hclosed|]. split; [exact Hself|].
  destruct (basemodel_disables_inplace Reference.small_net_class 1%positive ["act1"] tt ∅ _
              eq_refl Hclosed Hself) as (h2 & h' & ms & _ & Hinit & Hms & Hoff).
  exists h', ms. split; [exact Hinit|]. split; [exact Hms | exact Hoff].
Defined.

(** The modules of that network, in the order the generator yields them,
    and the attribute of the shared ReLU and of the PReLU afterwards. *)
Example small_net_modules :
  ∃ h', BaseModel_init Reference.small_net_class 1%positive ["act1"] tt ∅ = (ok tt, h') ∧
    modules h' 1%positive = Some [1; 2; 3; 4]%positive ∧
    (m_attrs <$> h' !! 2%positive) = Some {[ "inplace" := VBool false ]} ∧
    (m_attrs <$> h' !! 4%positive) = Some {[ "inplace" := VBool false ]}.
Proof. eexists. split; [reflexivity|]. split; [reflexivity|]. split; reflexivity. Qed.

(** * Further properties of the transforms *)

Section more_monad_facts.
Context {St : Type}.

(** A sequence returns only if its first part returns. *)
Lemma bind_ok_inv {A B} (m : M St A) (k : A → M St B) s b s' :
  (m ≫= k) s = (ok b, s') →
  ∃ a s1, m s = (ok a, s1) ∧ k a s1 = (ok b, s').
Proof.
  unfold_monad. destruct (m s) as [[e|a] s1]; [done|]. intros Hk.
  by exists a, s1.
Qed.

Lemma bind_fail {A B} (m : M St A) (k : A → M St B) s e s' :
  m s = (inl e, s') → (m ≫= k) s = (inl e, s').
Proof. intros Hm. unfold_monad. by rewrite Hm. Qed.

Lemma bind_mret_r {A} (m : M St A) s : (m ≫= mret) s = m s.
Proof. unfold_monad. by destruct (m s) as [[e|a] s1]. Qed.

End more_monad_facts.

(** ** The two changes of rank *)

Section claims_rank.
Context `{Scalars}.

(** X1. On an image of rank 3, [_as_4d] adds a leading dimension of size 1
    and [_as_3d] takes it away again: the image comes back as it was. *)
Theorem as_3d_inverts_as_4d (x : Tensor) :
  dim x = 3%nat →
  t_shape (_as_4d x) = 1%nat :: t_shape x ∧ _as_3d (_as_4d x) = x.
Proof.
  intros Hd. destruct x as [sh dt dev e]. unfold dim in Hd. simpl in Hd.
  unfold _as_4d, _as_3d, dim. simpl. rewrite (bool_decide_true _ Hd).
  simpl. rewrite Hd. split; reflexivity.
Qed.

End claims_rank.

Lemma as_3d_inverts_as_4d_witness :
  dim (Reference.ramp [3; 4; 5]%nat) = 3%nat ∧
  t_shape (_as_4d (Reference.ramp [3; 4; 5]%nat)) = [1; 3; 4; 5]%nat ∧
  _as_3d (_as_4d (Reference.ramp [3; 4; 5]%nat)) = Reference.ramp [3; 4; 5]%nat.
Proof.
  split; [reflexivity|].
  apply (as_3d_inverts_as_4d (Reference.ramp [3; 4; 5]%nat)). reflexivity.
Defined.

(** ** RandomScale and RandomRotate on any input *)

Section more_random_facts.
Context `{Random}.

Lemma rand_select_nonempty {A} (xs : list A) seed_ s :
  xs ≠ [] → ∃ x s', _rand_select xs seed_ s = (ok x, s') ∧ x ∈ xs.
Proof.
  intros Hxs. rewrite rand_select_unfold.
  destruct (randint_spec 0 (Z.of_nat (length xs) - 1) (seeded seed_ s))
    as (idx & s' & -> & Hidx).
  { destruct xs; [done | simpl; lia]. }
  destruct (list_getitem_in_range xs idx) as (x & Hget & Hx); [lia|].
  exists x, s'. unfold ok in *. rewrite Hget. split; [done|].
  by eapply list_elem_of_lookup_2.
Qed.

Lemma rand_select_of_empty {A} seed_ s :
  _rand_select ([] : list A) seed_ s = (raise ValueError, seeded seed_ s).
Proof. rewrite rand_select_unfold. by rewrite randint_empty. Qed.

End more_random_facts.

Section claims_scale_rotate.
Context `{Random} `{Scalars} `{!Functional} `{!Libm} `{!Images}.

Lemma list_of_run xs l w : lists w !! xs = Some l → list_of xs w = (ok l, w).
Proof. intros Hl. unfold list_of. by rewrite Hl. Qed.

(** X2. [RandomScale.__call__] draws one scale from the list [_scales]
    refers to and returns [_as_3d] of one interpolation of [_as_4d(x)] by
    that scale, with the configured mode and [align_corners]; the draw is the
    only thing it changes. *)
Theorem scale_is_one_interpolation (self : RandomScale.obj) (x : Tensor)
    (w : World) (scales : list float) :
  lists w !! RandomScale._scales self = Some scales →
  scales ≠ [] →
  ∃ s s',
    s ∈ scales ∧
    RandomScale_get_params scales (RandomScale._seed self) (random w) = (ok s, s') ∧
    RandomScale_call self x w =
      (y ← interpolate (_as_4d x) s (RandomScale._mode self)
             (RandomScale._align_corners self);
       ok (_as_3d y),
       set_random s' w).
Proof.
  intros Hl Hne.
  destruct (rand_select_nonempty scales (RandomScale._seed self) (random w) Hne)
    as (s & s' & Hdraw & Hin).
  exists s, s'. split_and!; [done | done |].
  unfold RandomScale_call.
  erewrite bind_ok by (by apply list_of_run).
  erewrite bind_ok by (apply with_random_run, Hdraw).
  unfold_monad. by destruct (interpolate _ _ _ _).
Qed.

(** X3. With an empty list of scales or of angles the draw raises
    [ValueError]: the call raises it before it reaches a kernel, and the
    generator is left as the optional seed put it. *)
Theorem empty_choices_raise (l : loc) (x : Tensor) (w : World) :
  lists w !! l = Some [] →
  (∀ self, RandomScale._scales self = l →
     RandomScale_call self x w =
       (raise ValueError,
        set_random (seeded (RandomScale._seed self) (random w)) w)) ∧
  (∀ self, RandomRotate._angles self = l →
     RandomRotate_call self x w =
       (raise ValueError,
        set_random (seeded (RandomRotate._seed self) (random w)) w)).
Proof.
  intros Hl. split; intros self <-.
  - unfold RandomScale_call.
    erewrite bind_ok by (by apply list_of_run).
    erewrite bind_fail; [done|].
    apply with_random_run. apply rand_select_of_empty.
  - unfold RandomRotate_call.
    erewrite bind_ok by (by apply list_of_run).
    erewrite bind_fail; [done|].
    apply with_random_run. apply rand_select_of_empty.
Qed.

(** X4. A rotation takes an image of size (C, H, W) to an image of rank 3
    with the same number of channels: the image is sampled as a batch of one
    and the batch dimension is dropped again. *)
Theorem rotate_keeps_rank_and_channels (self : RandomRotate.obj) (x y : Tensor)
    (w w' : World) (C Hh Ww : nat) :
  t_shape x = [C; Hh; Ww] →
  RandomRotate_call self x w = (ok y, w') →
  ∃ h' w'', t_shape y = [C; h'; w''].
Proof.
  intros Hx Hcall. unfold RandomRotate_call in Hcall.
  apply bind_ok_inv in Hcall as (angles & w1 & _ & Hcall).
  apply bind_ok_inv in Hcall as (a & w2 & _ & Hcall).
  apply bind_ok_inv in Hcall as (theta & w3 & _ & Hcall).
  apply bind_ok_inv in Hcall as (grid & w4 & _ & Hcall).
  apply bind_ok_inv in Hcall as (y0 & w5 & Hy0 & Hcall).
  injection Hcall as <- _.
  rewrite of_result_run in Hy0. injection Hy0 as Hy0 _.
  assert (t_shape (_as_4d x) = [1; C; Hh; Ww]%nat) as Hx4.
  { unfold _as_4d, dim. rewrite Hx, bool_decide_true by done.
    simpl. by rewrite Hx. }
  destruct (grid_sample_shape _ _ _ _ _ _ _ _ _ Hx4 Hy0) as (h' & w'' & Hsh).
  exists h', w''. unfold _as_3d, dim, squeeze0. rewrite Hsh.
  by rewrite bool_decide_true.
Qed.

End claims_scale_rotate.

Lemma scale_is_one_interpolation_witness :
  lists Reference.world !! RandomScale._scales Reference.scale
    = Some [1; 0.5]%float ∧
  [1; 0.5]%float ≠ [] ∧
  ∃ s s',
    s ∈ [1; 0.5]%float ∧
    RandomScale_call Reference.scale (Reference.ramp [3; 4; 5]%nat) Reference.world =
      (y ← interpolate (_as_4d (Reference.ramp [3; 4; 5]%nat)) s "bilinear" None;
       ok (_as_3d y),
       set_random s' Reference.world).
Proof.
  assert (Hl : lists Reference.world !! RandomScale._scales Reference.scale
               = Some [1; 0.5]%float) by reflexivity.
  assert (Hne : [1; 0.5]%float ≠ []) by discriminate.
  split; [exact Hl|]. split; [exact Hne|].
  destruct (scale_is_one_interpolation Reference.scale
              (Reference.ramp [3; 4; 5]%nat) Reference.world _ Hl Hne)
    as (s & s' & Hin & _ & Hcall).
  exists s, s'. split; [exact Hin | exact Hcall].
Defined.

Lemma empty_choices_raise_witness :
  lists (set_lists {[ 1%positive := [] ]} Reference.world) !! 1%positive = Some [] ∧
  RandomRotate_call Reference.rotate (Reference.ramp [3; 4; 5]%nat)
    (set_lists {[ 1%positive := [] ]} Reference.world) =
    (raise ValueError,
     set_random 42 (set_lists {[ 1%positive := [] ]} Reference.world)).
Proof.
  assert (Hl : lists (set_lists {[ 1%positive := [] ]} Reference.world)
                 !! 1%positive = Some []) by reflexivity.
  split; [exact Hl|].
  apply (empty_choices_raise 1%positive (Reference.ramp [3; 4; 5]%nat) _ Hl).
  reflexivity.
Defined.

Lemma rotate_keeps_rank_and_channels_witness :
  t_shape (Reference.ramp [3; 4; 5]%nat) = [3; 4; 5]%nat ∧
  ∃ y w',
    RandomRotate_call Reference.rotate (Reference.ramp [3; 4; 5]%nat)
      Reference.world = (ok y, w') ∧
    ∃ h' w'', t_shape y = [3; h'; w'']%nat.
Proof.
  split; [reflexivity|].
  eexists _, _. split; [reflexivity|].
  eapply (rotate_keeps_rank_and_channels Reference.rotate
            (Reference.ramp [3; 4; 5]%nat) _ Reference.world _ 3 4 5);
    reflexivity.
Defined.

(** ** Constructing a rotation and calling it *)

Section claims_construct_rotate.
Context `{Random} `{Scalars} `{!Functional} `{!Libm} `{!Images}.

(** The world a constructor in degrees leaves. *)
Lemma RandomRotate_init_degrees self angles units mode padding_mode seed_ w l :
  lists w !! angles = Some l →
  lower units ∈ ["degrees"; "degs"; "deg"] →
  RandomRotate_init self angles units mode padding_mode seed_ w =
    (ok tt,
     set_objects
       (<[self := a_RandomRotate
            {| RandomRotate._angles := angles; RandomRotate._mode := mode;
               RandomRotate._padding_mode := padding_mode;
               RandomRotate._seed := seed_ |}]> (objects w))
       (set_lists (<[angles := to_radians <$> l]> (lists w)) w)).
Proof.
  intros Hl Hdeg. unfold RandomRotate_init. rewrite bool_decide_true by done.
  erewrite bind_ok; cycle 1.
  { erewrite bind_ok by (by apply list_of_run).
    apply (convert_loop angles l (length l) 0); [done|].
    by rewrite take_0, drop_0. }
  done.
Qed.

(** X5. After a constructor in degrees on a non-empty list, a call of the
    new object draws its angle from the converted list: it goes on from
    [pi * a / 180] for an entry [a] of the list as it was given, building
    [theta] from that angle, or raising [ValueError] when that angle is
    infinite. *)
Theorem degrees_reach_the_call (self angles : loc) (units mode padding_mode : string)
    (seed_ : option Z) (w : World) (l : list float) (x : Tensor) :
  lists w !! angles = Some l →
  l ≠ [] →
  lower units ∈ ["degrees"; "degs"; "deg"] →
  let w1 := (RandomRotate_init self angles units mode padding_mode seed_ w).2 in
  ∃ a s' o,
    a ∈ l ∧
    objects w1 !! self = Some (a_RandomRotate o) ∧
    RandomRotate_get_params ((λ a, math_pi * a / 180)%float <$> l) seed_ (random w1)
      = (ok (math_pi * a / 180)%float, s') ∧
    call 1 self x w1 =
      (theta ← rotation_theta (_as_4d x) (math_pi * a / 180)%float;
       y ← sampled o (_as_4d x) theta;
       ok (_as_3d y),
       set_random s' w1) ∧
    (is_infinity (math_pi * a / 180)%float = true →
       call 1 self x w1 = (raise ValueError, set_random s' w1)) ∧
    (is_infinity (math_pi * a / 180)%float = false →
       ∃ theta, rotation_theta (_as_4d x) (math_pi * a / 180)%float = ok theta).
Proof.
  intros Hl Hne Hdeg w1. subst w1.
  rewrite (RandomRotate_init_degrees _ _ _ _ _ _ _ _ Hl Hdeg). cbn [snd].
  set (o := {| RandomRotate._angles := angles; RandomRotate._mode := mode;
               RandomRotate._padding_mode := padding_mode;
               RandomRotate._seed := seed_ |}).
  set (w1 := set_objects _ _).
  assert (Hl1 : lists w1 !! RandomRotate._angles o = Some (to_radians <$> l)).
  { subst w1 o. simpl. by rewrite lookup_insert_eq. }
  destruct (rand_select_nonempty (to_radians <$> l) seed_ (random w1))
    as (r & s' & Hdraw & Hin).
  { by destruct l. }
  apply list_elem_of_fmap in Hin as (a & -> & Hin).
  pose proof (RandomRotate_call_drawn o x w1 _ _ _ Hl1 Hdraw) as Hcall.
  assert (Hdispatch : call 1 self x w1 = RandomRotate_call o x w1).
  { simpl. erewrite bind_ok; cycle 1.
    { unfold get_object. subst w1. simpl. rewrite lookup_insert_eq. reflexivity. }
    reflexivity. }
  exists a, s', o. split_and!.
  - done.
  - subst w1. simpl. by rewrite lookup_insert_eq.
  - exact Hdraw.
  - by rewrite Hdispatch.
  - intros Ha. rewrite Hdispatch, Hcall.
    by rewrite (rotation_theta_infinite _ _ Ha).
  - intros Ha. destruct (rotation_theta_spec (_as_4d x) _ Ha) as (theta & Hth & _).
    by exists theta.
Qed.

(** X6. The constructor converts the list it is given, not a copy: a second
    rotation constructed in degrees from the same list converts the entries
    once more, and both objects then refer to the list converted twice. *)
Theorem second_constructor_converts_again (self1 self2 angles : loc)
    (units1 units2 mode1 mode2 padding1 padding2 : string)
    (seed1 seed2 : option Z) (w : World) (l : list float) :
  lists w !! angles = Some l →
  lower units1 ∈ ["degrees"; "degs"; "deg"] →
  lower units2 ∈ ["degrees"; "degs"; "deg"] →
  self1 ≠ self2 →
  let w1 := (RandomRotate_init self1 angles units1 mode1 padding1 seed1 w).2 in
  let w2 := (RandomRotate_init self2 angles units2 mode2 padding2 seed2 w1).2 in
  lists w2 !! angles
    = Some ((λ a, math_pi * (math_pi * a / 180) / 180)%float <$> l) ∧
  (∃ o1, objects w2 !! self1 = Some (a_RandomRotate o1) ∧
         RandomRotate._angles o1 = angles) ∧
  (∃ o2, objects w2 !! self2 = Some (a_RandomRotate o2) ∧
         RandomRotate._angles o2 = angles).
Proof.
  intros Hl Hd1 Hd2 Hne w1 w2. subst w2 w1.
  rewrite (RandomRotate_init_degrees _ _ _ _ _ _ _ _ Hl Hd1). simpl.
  erewrite RandomRotate_init_degrees; [| simpl; by rewrite lookup_insert_eq | done].
  simpl. split_and!.
  - rewrite lookup_insert_eq. f_equal. rewrite <- list_fmap_compose. done.
  - eexists. rewrite lookup_insert_ne, lookup_insert_eq by done. done.
  - eexists. rewrite lookup_insert_eq. done.
Qed.

End claims_construct_rotate.

Lemma degrees_reach_the_call_witness :
  lists Reference.world !! 1%positive = Some [0; 90; 180]%float ∧
  [0; 90; 180]%float ≠ [] ∧
  lower "deg" ∈ ["degrees"; "degs"; "deg"] ∧
  let w1 := (RandomRotate_init 20%positive 1%positive "deg" "bilinear"
               "zeros" None Reference.world).2 in
  ∃ a s' o,
    a ∈ [0; 90; 180]%float ∧
    objects w1 !! 20%positive = Some (a_RandomRotate o) ∧
    call 1 20%positive (Reference.ramp [3; 4; 5]%nat) w1 =
      (theta ← rotation_theta (_as_4d (Reference.ramp [3; 4; 5]%nat))
                 (math_pi * a / 180)%float;
       y ← sampled o (_as_4d (Reference.ramp [3; 4; 5]%nat)) theta;
       ok (_as_3d y),
       set_random s' w1).
Proof.
  assert (Hl : lists Reference.world !! 1%positive = Some [0; 90; 180]%float)
    by reflexivity.
  assert (Hne : [0; 90; 180]%float ≠ []) by discriminate.
  assert (Hdeg : lower "deg" ∈ ["degrees"; "degs"; "deg"])
    by (cbv [lower ascii_lower]; simpl; repeat constructor).
  split; [exact Hl|]. split; [exact Hne|]. split; [exact Hdeg|].
  destruct (degrees_reach_the_call 20%positive 1%positive "deg" "bilinear" "zeros"
              None Reference.world _ (Reference.ramp [3; 4; 5]%nat) Hl Hne Hdeg)
    as (a & s' & o & Hin & Hobj & _ & Hcall & _).
  exists a, s', o. split; [exact Hin|]. split; [exact Hobj | exact Hcall].
Defined.

Lemma second_constructor_converts_again_witness :
  lists Reference.world !! 1%positive = Some [0; 90; 180]%float ∧
  lower "degrees" ∈ ["degrees"; "degs"; "deg"] ∧
  lower "DEGS" ∈ ["degrees"; "degs"; "deg"] ∧
  20%positive ≠ 21%positive ∧
  let w1 := (RandomRotate_init 20%positive 1%positive "degrees" "bilinear"
               "zeros" None Reference.world).2 in
  let w2 := (RandomRotate_init 21%positive 1%positive "DEGS" "nearest"
               "border" (Some 3) w1).2 in
  lists w2 !! 1%positive
    = Some ((λ a, math_pi * (math_pi * a / 180) / 180)%float <$> [0; 90; 180]%float).
Proof.
  assert (Hl : lists Reference.world !! 1%positive = Some [0; 90; 180]%float)
    by reflexivity.
  assert (Hd1 : lower "degrees" ∈ ["degrees"; "degs"; "deg"])
    by (cbv [lower ascii_lower]; simpl; repeat constructor).
  assert (Hd2 : lower "DEGS" ∈ ["degrees"; "degs"; "deg"])
    by (cbv [lower ascii_lower]; simpl; repeat constructor).
  assert (Hne : 20%positive ≠ 21%positive) by discriminate.
  split; [exact Hl|]. split; [exact Hd1|]. split; [exact Hd2|]. split; [exact Hne|].
  exact (proj1 (second_constructor_converts_again 20%positive 21%positive 1%positive
           "degrees" "DEGS" "bilinear" "nearest" "zeros" "border" None (Some 3)
           Reference.world _ Hl Hd1 Hd2 Hne)).
Defined.

(** ** Compose *)

Section claims_compose.
Context `{Random} `{Scalars} `{!Functional} `{!Libm} `{!Images}.

(** The loop over two lists, one after the other. *)
Lemma Compose_loop_app invoke (ts1 ts2 : list loc) (x : Tensor) (w : World) :
  Compose_loop invoke (ts1 ++ ts2) x w =
    (Compose_loop invoke ts1 x ≫= Compose_loop invoke ts2) w.
Proof.
  revert x w. induction ts1 as [|t ts1 IH]; intros x w; simpl.
  - done.
  - unfold_monad. destruct (invoke t x w) as [[e|x1] w1]; [done|]. apply IH.
Qed.

Lemma call_Compose depth self c x w :
  objects w !! self = Some (a_Compose c) →
  call (S depth) self x w = Compose_loop (call depth) (Compose._transforms c) x w.
Proof.
  intros Hc. cbn [call]. erewrite bind_ok; cycle 1.
  { unfold get_object. rewrite Hc. reflexivity. }
  reflexivity.
Qed.

(** X7. A [Compose] of two [Compose] objects applies what a single
    [Compose] of their transforms, in the same order, applies: the same
    tensor or the same exception, and the same world. *)
Theorem nested_compose_is_flat (depth : nat) (outer flat c1 c2 : loc)
    (ts1 ts2 : list loc) (x : Tensor) (w : World) :
  objects w !! c1 = Some (a_Compose {| Compose._transforms := ts1 |}) →
  objects w !! c2 = Some (a_Compose {| Compose._transforms := ts2 |}) →
  objects w !! outer = Some (a_Compose {| Compose._transforms := [c1; c2] |}) →
  objects w !! flat = Some (a_Compose {| Compose._transforms := ts1 ++ ts2 |}) →
  call (S (S depth)) outer x w = call (S depth) flat x w.
Proof.
  intros Hc1 Hc2 Houter Hflat.
  rewrite (call_Compose _ _ _ _ _ Hflat), (call_Compose _ _ _ _ _ Houter).
  cbn [Compose._transforms Compose_loop]. rewrite Compose_loop_app.
  unfold mbind at 1 3, M_bind, bind.
  rewrite (call_Compose _ _ _ _ _ Hc1). cbn [Compose._transforms].
  pose proof (keeps_Compose_loop (call depth) ts1 x (keeps_call depth) w) as [Hobj _].
  destruct (Compose_loop (call depth) ts1 x w) as [[e|x1] w1]; [done|].
  simpl in Hobj.
  assert (objects w1 !! c2 = Some (a_Compose {| Compose._transforms := ts2 |}))
    as Hc2' by (by rewrite Hobj).
  etrans; [apply (bind_mret_r (call (S depth) c2 x1))|].
  by rewrite (call_Compose _ _ _ _ _ Hc2').
Qed.

(** X8. A [Compose] stops at the first transform that raises: it raises the
    same exception, and the world is the one that transform left (the
    transforms after it are not called). *)
Theorem compose_stops_at_first_failure (depth : nat) (self t : loc)
    (ts1 ts2 : list loc) (x x1 : Tensor) (w w1 w2 : World) (e : exn) :
  objects w !! self
    = Some (a_Compose {| Compose._transforms := ts1 ++ t :: ts2 |}) →
  Compose_loop (call depth) ts1 x w = (ok x1, w1) →
  call depth t x1 w1 = (raise e, w2) →
  call (S depth) self x w = (raise e, w2).
Proof.
  intros Hself Hts1 Ht. rewrite (call_Compose _ _ _ _ _ Hself).
  cbn [Compose._transforms]. rewrite Compose_loop_app.
  erewrite bind_ok by exact Hts1. cbn [Compose_loop]. by erewrite bind_fail.
Qed.

End claims_compose.


Lemma nested_compose_is_flat_witness :
  objects Reference.nested_world !! 15%positive
    = Some (a_Compose {| Compose._transforms := [10%positive] |}) ∧
  objects Reference.nested_world !! 16%positive
    = Some (a_Compose {| Compose._transforms := [11; 13]%positive |}) ∧
  objects Reference.nested_world !! 17%positive
    = Some (a_Compose {| Compose._transforms := [15; 16]%positive |}) ∧
  objects Reference.nested_world !! 14%positive
    = Some (a_Compose {| Compose._transforms := [10%positive] ++ [11; 13]%positive |}) ∧
  call 3 17%positive (Reference.ramp [4; 6; 7]%nat) Reference.nested_world
    = call 2 14%positive (Reference.ramp [4; 6; 7]%nat) Reference.nested_world.
Proof.
  assert (Hc1 : objects Reference.nested_world !! 15%positive
            = Some (a_Compose {| Compose._transforms := [10%positive] |}))
    by reflexivity.
  assert (Hc2 : objects Reference.nested_world !! 16%positive
            = Some (a_Compose {| Compose._transforms := [11; 13]%positive |}))
    by reflexivity.
  assert (Houter : objects Reference.nested_world !! 17%positive
            = Some (a_Compose {| Compose._transforms := [15; 16]%positive |}))
    by reflexivity.
  assert (Hflat : objects Reference.nested_world !! 14%positive
            = Some (a_Compose {| Compose._transforms := [10%positive] ++ [11; 13]%positive |}))
    by reflexivity.
  split; [exact Hc1|]. split; [exact Hc2|]. split; [exact Houter|].
  split; [exact Hflat|].
  exact (nested_compose_is_flat 1 17%positive 14%positive 15%positive 16%positive
           _ _ (Reference.ramp [4; 6; 7]%nat) Reference.nested_world Hc1 Hc2 Houter Hflat).
Defined.



Lemma compose_stops_at_first_failure_witness :
  objects Reference.failing_world !! 31%positive
    = Some (a_Compose
              {| Compose._transforms := [10%positive] ++ 30%positive :: [11%positive] |}) ∧
  ∃ x1,
    Compose_loop (call 1) [10%positive] (Reference.ramp [4; 6; 7]%nat) Reference.failing_world
      = (ok x1, Reference.jittered.2) ∧
    call 1 30%positive x1 Reference.jittered.2 = (raise ValueError, Reference.jittered.2) ∧
    call 2 31%positive (Reference.ramp [4; 6; 7]%nat) Reference.failing_world
      = (raise ValueError, Reference.jittered.2).
Proof.
  assert (Hself : objects Reference.failing_world !! 31%positive
            = Some (a_Compose
                {| Compose._transforms := [10%positive] ++ 30%positive :: [11%positive] |}))
    by reflexivity.
  split; [exact Hself|].
  exists (match Reference.jittered.1 with inr t => t | inl _ => Reference.ramp [] end).
  assert (Hts1 : Compose_loop (call 1) [10%positive] (Reference.ramp [4; 6; 7]%nat)
                   Reference.failing_world
                 = (ok (match Reference.jittered.1 with inr t => t | inl _ => Reference.ramp [] end),
                    Reference.jittered.2)) by reflexivity.
  assert (Ht : call 1 30%positive
                 (match Reference.jittered.1 with inr t => t | inl _ => Reference.ramp [] end)
                 Reference.jittered.2 = (raise ValueError, Reference.jittered.2)) by reflexivity.
  split; [exact Hts1|]. split; [exact Ht|].
  exact (compose_stops_at_first_failure 1 31%positive 30%positive _ _ _ _ _ _ _ _
           Hself Hts1 Ht).
Defined.

(** ** SpatialJitter at the edges *)

Section claims_jitter_edges.
Context `{Random} `{Scalars} `{!Functional} `{!Libm} `{!Images}.

Lemma SpatialJitter_call_offsets (self : SpatialJitter.obj) (img : Tensor)
    (w : World) x0 y0 s' :
  SpatialJitter_get_params (SpatialJitter._pixels self)
    (SpatialJitter._seed self) (random w) = (ok (x0, y0), s') →
  SpatialJitter_call self img w =
    (h ← tensor_size (_as_3d img) 1;
     wd ← tensor_size (_as_3d img) 2;
     getitem_slices (_as_3d img)
       [(None, None);
        (Some x0, Some (Z.of_nat h - (SpatialJitter._pixels self - x0)));
        (Some y0, Some (Z.of_nat wd - (SpatialJitter._pixels self - y0)))],
     set_random s' w).
Proof.
  intros Hdraw. unfold SpatialJitter_call.
  erewrite bind_ok by (apply with_random_run, Hdraw). cbn [fst snd].
  unfold_monad. destruct (tensor_size (_as_3d img) 1) as [e|h]; [done|].
  by destruct (tensor_size (_as_3d img) 2) as [e|wd].
Qed.

(** X9. A jitter by 0 pixels returns the image it is given: the same size,
    element type and device, and the same entry at every index. *)
Theorem jitter_by_zero_is_identity (self : SpatialJitter.obj) (img : Tensor)
    (w : World) (C Hh Ww : nat) :
  SpatialJitter._pixels self = 0 →
  t_shape img = [C; Hh; Ww] →
  ∃ out w',
    SpatialJitter_call self img w = (ok out, w') ∧
    t_shape out = t_shape img ∧
    t_dtype out = t_dtype img ∧
    t_device out = t_device img ∧
    ∀ idx, t_entry out idx = t_entry img idx.
Proof.
  intros Hp Hx.
  destruct (get_params_spec (SpatialJitter._pixels self)
              (SpatialJitter._seed self) (random w))
    as (x0 & y0 & s' & Hdraw & Hx0 & Hy0); [lia|].
  assert (x0 = 0) as -> by lia. assert (y0 = 0) as -> by lia.
  rewrite (SpatialJitter_call_offsets _ _ _ _ _ _ Hdraw), Hp.
  rewrite as_3d_of_3d by (unfold dim; by rewrite Hx).
  unfold tensor_size. rewrite Hx. unfold_monad. cbn [list_getitem]. simpl.
  rewrite !Z.sub_0_r.
  assert (Hidx : ∀ idx, sliced_index [C; Hh; Ww]
            [(None, None); (Some 0, Some (Z.of_nat Hh)); (Some 0, Some (Z.of_nat Ww))]
            idx = idx).
  { intros [|c [|i [|j rest]]]; cbn [sliced_index];
      rewrite ?slice_indices_full, ?slice_indices_window by lia; done. }
  unfold getitem_slices. rewrite Hx. cbn [sliced_shape].
  rewrite slice_indices_full, !slice_indices_window by lia.
  unfold_monad. eexists _, _. split; [reflexivity|].
  cbn [t_shape t_dtype t_device t_entry snd].
  rewrite !Z.sub_0_r, !Nat2Z.id. split_and!; try done.
  intros idx. by rewrite Hidx.
Qed.

(** X10. A jitter by a negative number of pixels raises [ValueError]: the
    range the offsets are drawn from is empty. *)
Theorem jitter_negative_pixels_raise (self : SpatialJitter.obj) (img : Tensor)
    (w : World) :
  SpatialJitter._pixels self < 0 →
  SpatialJitter_call self img w =
    (raise ValueError,
     set_random (seeded (SpatialJitter._seed self) (random w)) w).
Proof.
  intros Hp. unfold SpatialJitter_call. erewrite bind_fail; [done|].
  apply with_random_run. unfold SpatialJitter_get_params.
  destruct (SpatialJitter._seed self) as [a|]; simpl.
  - erewrite bind_ok by reflexivity. erewrite bind_fail; [done|].
    by apply randint_empty.
  - erewrite bind_ok by reflexivity. erewrite bind_fail; [done|].
    by apply randint_empty.
Qed.

(** X11. An image of rank 2, without a channel dimension, makes the call
    raise [IndexError] after the offsets are drawn: it has no dimension 2. *)
Theorem jitter_rank_two_raises (self : SpatialJitter.obj) (img : Tensor)
    (w : World) (Hh Ww : nat) :
  0 ≤ SpatialJitter._pixels self →
  t_shape img = [Hh; Ww] →
  (SpatialJitter_call self img w).1 = raise IndexError.
Proof.
  intros Hp Hx.
  destruct (get_params_spec (SpatialJitter._pixels self)
              (SpatialJitter._seed self) (random w))
    as (x0 & y0 & s' & Hdraw & _); [lia|].
  rewrite (SpatialJitter_call_offsets _ _ _ _ _ _ Hdraw).
  unfold _as_3d, dim, tensor_size. rewrite Hx, bool_decide_false by done.
  rewrite Hx. reflexivity.
Qed.

(** X12. On a batch of size (N, C, H, W) with N other than 1 the call
    slices dimensions 1 and 2: it crops the channels and the rows and keeps
    every column, so the output has size (N, C-p, H-p, W). *)
Theorem jitter_on_batch_crops_channels (self : SpatialJitter.obj) (img : Tensor)
    (w : World) (N C Hh Ww : nat) :
  let p := SpatialJitter._pixels self in
  t_shape img = [N; C; Hh; Ww] →
  N ≠ 1%nat →
  0 ≤ p ≤ Z.of_nat (C `min` Hh) →
  ∃ x0 y0 out w',
    0 ≤ x0 ≤ p ∧ 0 ≤ y0 ≤ p ∧
    SpatialJitter_call self img w = (ok out, w') ∧
    t_shape out = [N; (C - Z.to_nat p)%nat; (Hh - Z.to_nat p)%nat; Ww] ∧
    ∀ n c i j, t_entry out [n; c; i; j] =
               t_entry img [n; (Z.to_nat x0 + c)%nat; (Z.to_nat y0 + i)%nat; j].
Proof.
  intros p Hx HN Hp.
  destruct (get_params_spec p (SpatialJitter._seed self) (random w))
    as (x0 & y0 & s' & Hdraw & Hx0 & Hy0); [lia|].
  exists x0, y0.
  rewrite (SpatialJitter_call_offsets _ _ _ _ _ _ Hdraw). fold p.
  assert (_as_3d img = img) as ->.
  { unfold _as_3d, dim, squeeze0. rewrite Hx. simpl.
    by destruct N as [|[|N]]. }
  unfold tensor_size. rewrite Hx. unfold_monad. cbn [list_getitem]. simpl.
  unfold getitem_slices. rewrite Hx. cbn [sliced_shape].
  rewrite slice_indices_full, !slice_indices_window by lia.
  unfold_monad. eexists _, _. split_and!; [lia..|reflexivity| |].
  - cbn [t_shape snd]. repeat f_equal; lia.
  - intros n c i j. cbn [t_entry sliced_index].
    by rewrite slice_indices_full, !slice_indices_window by lia.
Qed.

Lemma SpatialJitter_call_unfold (self : SpatialJitter.obj) (img : Tensor)
    (w : World) :
  SpatialJitter_call self img w =
    (match (SpatialJitter_get_params (SpatialJitter._pixels self)
              (SpatialJitter._seed self) (random w)).1 with
     | inl e => inl e
     | inr offsets =>
         h ← tensor_size (_as_3d img) 1;
         wd ← tensor_size (_as_3d img) 2;
         getitem_slices (_as_3d img)
           [(None, None);
            (Some offsets.1,
             Some (Z.of_nat h - (SpatialJitter._pixels self - offsets.1)));
            (Some offsets.2,
             Some (Z.of_nat wd - (SpatialJitter._pixels self - offsets.2)))]
     end,
     set_random
       (SpatialJitter_get_params (SpatialJitter._pixels self)
          (SpatialJitter._seed self) (random w)).2 w).
Proof.
  unfold SpatialJitter_call, with_random. unfold_monad.
  destruct (SpatialJitter_get_params _ _ (random w)) as [[e|offs] s1];
    cbn [fst snd]; [done|].
  destruct (tensor_size (_as_3d img) 1) as [e|h]; [done|].
  by destruct (tensor_size (_as_3d img) 2) as [e|wd].
Qed.

Lemma get_params_seeded pixels a s s' :
  SpatialJitter_get_params pixels (Some a) s =
  SpatialJitter_get_params pixels (Some a) s'.
Proof. reflexivity. Qed.

(** X13. With a seed the offsets are drawn from the reseeded generator at
    every call, so the call after a call returns what the first returned and
    leaves the generator where the first left it: a seeded jitter crops the
    same window every time. *)
Theorem seeded_jitter_repeats (self : SpatialJitter.obj) (img : Tensor)
    (w : World) (a : Z) :
  SpatialJitter._seed self = Some a →
  SpatialJitter_call self img (SpatialJitter_call self img w).2
    = SpatialJitter_call self img w.
Proof.
  intros Hseed. rewrite !SpatialJitter_call_unfold, Hseed. cbn [snd].
  rewrite (get_params_seeded _ _ (random (set_random _ w)) (random w)).
  done.
Qed.

End claims_jitter_edges.


Lemma jitter_by_zero_is_identity_witness :
  SpatialJitter._pixels Reference.still = 0 ∧
  t_shape (Reference.ramp [3; 4; 5]%nat) = [3; 4; 5]%nat ∧
  ∃ out w',
    SpatialJitter_call Reference.still (Reference.ramp [3; 4; 5]%nat) Reference.world
      = (ok out, w') ∧
    t_shape out = t_shape (Reference.ramp [3; 4; 5]%nat) ∧
    t_dtype out = t_dtype (Reference.ramp [3; 4; 5]%nat) ∧
    t_device out = t_device (Reference.ramp [3; 4; 5]%nat) ∧
    ∀ idx, t_entry out idx = t_entry (Reference.ramp [3; 4; 5]%nat) idx.
Proof.
  split; [reflexivity|]. split; [reflexivity|].
  exact (jitter_by_zero_is_identity Reference.still (Reference.ramp [3; 4; 5]%nat)
           Reference.world 3 4 5 eq_refl eq_refl).
Defined.

Lemma jitter_negative_pixels_raise_witness :
  SpatialJitter._pixels Reference.backwards < 0 ∧
  SpatialJitter_call Reference.backwards (Reference.ramp [3; 4; 5]%nat) Reference.world =
    (raise ValueError, set_random 3 Reference.world).
Proof.
  assert (Hp : SpatialJitter._pixels Reference.backwards < 0) by reflexivity.
  split; [exact Hp|].
  exact (jitter_negative_pixels_raise Reference.backwards (Reference.ramp [3; 4; 5]%nat)
           Reference.world Hp).
Defined.

Lemma jitter_rank_two_raises_witness :
  0 ≤ SpatialJitter._pixels Reference.jitter ∧
  t_shape (Reference.ramp [4; 5]%nat) = [4; 5]%nat ∧
  (SpatialJitter_call Reference.jitter (Reference.ramp [4; 5]%nat)
     Reference.world).1 = raise IndexError.
Proof.
  assert (Hp : 0 ≤ SpatialJitter._pixels Reference.jitter) by discriminate.
  split; [exact Hp|]. split; [reflexivity|].
  exact (jitter_rank_two_raises Reference.jitter (Reference.ramp [4; 5]%nat)
           Reference.world 4 5 Hp eq_refl).
Defined.

Lemma jitter_on_batch_crops_channels_witness :
  t_shape (Reference.ramp [2; 3; 4; 5]%nat) = [2; 3; 4; 5]%nat ∧
  2%nat ≠ 1%nat ∧
  0 ≤ 2 ≤ Z.of_nat (3 `min` 4) ∧
  ∃ x0 y0 out w',
    0 ≤ x0 ≤ 2 ∧ 0 ≤ y0 ≤ 2 ∧
    SpatialJitter_call Reference.jitter (Reference.ramp [2; 3; 4; 5]%nat)
      Reference.world = (ok out, w') ∧
    t_shape out = [2; 1; 2; 5]%nat ∧
    ∀ n c i j, t_entry out [n; c; i; j] =
               t_entry (Reference.ramp [2; 3; 4; 5]%nat)
                 [n; (Z.to_nat x0 + c)%nat; (Z.to_nat y0 + i)%nat; j].
Proof.
  assert (HN : 2%nat ≠ 1%nat) by discriminate.
  assert (Hp : 0 ≤ 2 ≤ Z.of_nat (3 `min` 4)) by (split; discriminate).
  split; [reflexivity|]. split; [exact HN|]. split; [exact Hp|].
  exact (jitter_on_batch_crops_channels Reference.jitter
           (Reference.ramp [2; 3; 4; 5]%nat) Reference.world 2 3 4 5
           eq_refl HN Hp).
Defined.

Lemma seeded_jitter_repeats_witness :
  SpatialJitter._seed Reference.jitter = Some 7 ∧
  SpatialJitter_call Reference.jitter (Reference.ramp [3; 4; 5]%nat)
    (SpatialJitter_call Reference.jitter (Reference.ramp [3; 4; 5]%nat)
       Reference.world).2
  = SpatialJitter_call Reference.jitter (Reference.ramp [3; 4; 5]%nat)
      Reference.world.
Proof.
  split; [reflexivity|].
  exact (seeded_jitter_repeats Reference.jitter (Reference.ramp [3; 4; 5]%nat)
           Reference.world 7 eq_refl).
Defined.

(** * Further properties of the model helpers *)

Section claims_storing_more.
Context `{Countable K} {V : Type}.

(** X14. Two [Storer] modules constructed on the same dictionary write to
    that one dictionary: after both have run it holds the second
    activation under the second name and, if the names differ, Reference.still the
    first under the first; with the same name the later activation
    replaces the earlier one. *)
Theorem storers_share_their_dictionary (dicts : gmap loc (gmap K V))
    (save_state : loc) (name1 name2 : K) (x1 x2 : V) (d : gmap K V) :
  dicts !! save_state = Some d →
  let r1 := Storer_forward (Storer_init save_state name1) x1 dicts in
  let r2 := Storer_forward (Storer_init save_state name2) x2 r1.2 in
  r2.1 = ok x2 ∧
  ∃ d', r2.2 !! save_state = Some d' ∧
    d' !! name2 = Some x2 ∧
    (name1 ≠ name2 → d' !! name1 = Some x1) ∧
    (name1 = name2 → d' = <[name2 := x2]> d) ∧
    (∀ k, k ≠ name1 → k ≠ name2 → d' !! k = d !! k).
Proof.
  intros Hd r1 r2. subst r2 r1. unfold Storer_forward, Storer_init. simpl.
  rewrite Hd. simpl. rewrite lookup_insert_eq. simpl. split; [done|].
  exists (<[name2 := x2]> (<[name1 := x1]> d)). split_and!.
  - by rewrite lookup_insert_eq.
  - by rewrite lookup_insert_eq.
  - intros Hne. by rewrite lookup_insert_ne, lookup_insert_eq.
  - intros ->. by rewrite insert_insert_eq.
  - intros k Hk1 Hk2. by rewrite !lookup_insert_ne.
Qed.

(** X15. Calls of [storer] add up on a state that holds under [LAYER_DICT]
    nothing, a dictionary, or a value that takes no item assignment at all
    (not a list or another container that takes some subscripts and refuses
    others): after [storer(state, name1, x1)] and then
    [storer(state, name2, x2)] the second call finds a dictionary under
    [LAYER_DICT] (it does not take the [except] branch) and the dictionary
    holds [x2] under [name2] and, if the names differ, [x1] under [name1]. *)
Theorem storer_calls_add_up (LAYER_DICT name1 name2 : K) (x1 x2 : V)
    (state : gmap K (slot K V)) :
  let state1 := (storer LAYER_DICT name1 x1 state).2 in
  let state2 := (storer LAYER_DICT name2 x2 state1).2 in
  storer_try LAYER_DICT state1 name2 x2 = ok state2 ∧
  ∃ d, state2 !! LAYER_DICT = Some (a_dict d) ∧
    d !! name2 = Some x2 ∧
    (name1 ≠ name2 → d !! name1 = Some x1).
Proof.
  intros state1 state2.
  assert (∃ d1, state1 !! LAYER_DICT = Some (a_dict d1) ∧ d1 !! name1 = Some x1)
    as (d1 & Hs1 & Hd1).
  { subst state1. unfold storer, storer_try.
    destruct (state !! LAYER_DICT) as [[d|v]|]; cbn [snd];
      eexists; (split; [apply lookup_insert_eq|]);
      by rewrite ?lookup_insert_eq, ?lookup_singleton_eq. }
  subst state2. unfold storer, storer_try. rewrite Hs1. unfold ok. cbn [snd].
  split; [done|]. exists (<[name2 := x2]> d1). split_and!.
  - by rewrite lookup_insert_eq.
  - by rewrite lookup_insert_eq.
  - intros Hne. by rewrite lookup_insert_ne.
Qed.

End claims_storing_more.

Lemma storers_share_their_dictionary_witness :
  ({[ 5%positive := {[ "fc" := 1%nat ]} ]} : gmap loc (gmap string nat))
    !! 5%positive = Some {[ "fc" := 1%nat ]} ∧
  let r1 := Storer_forward (Storer_init 5%positive "conv1") 7%nat
              ({[ 5%positive := {[ "fc" := 1%nat ]} ]} : gmap loc (gmap string nat)) in
  let r2 := Storer_forward (Storer_init 5%positive "conv2") 8%nat r1.2 in
  r2.1 = ok 8%nat ∧
  ∃ d', r2.2 !! 5%positive = Some d' ∧
    d' !! "conv2" = Some 8%nat ∧
    ("conv1" ≠ "conv2" → d' !! "conv1" = Some 7%nat).
Proof.
  assert (Hd : ({[ 5%positive := {[ "fc" := 1%nat ]} ]} : gmap loc (gmap string nat))
                 !! 5%positive = Some {[ "fc" := 1%nat ]}) by reflexivity.
  split; [exact Hd|].
  destruct (storers_share_their_dictionary _ 5%positive "conv1" "conv2" 7%nat 8%nat
              _ Hd) as (Hret & d' & Hd' & H2 & H1 & _).
  split; [exact Hret|]. exists d'. split; [exact Hd'|]. split; [exact H2 | exact H1].
Defined.

Section claims_modules_more.
Context {Args : Type}.

Implicit Types h : gmap loc module.

(** The store [BaseModel.__init__] leaves: the one the loop left, with the
    three attributes written to [self]. *)
Lemma BaseModel_init_run (model : @model_class Args) (self : loc)
    (layer_names : list string) (args : Args) h h1 :
  __init__ model self args h = (ok tt, h1) →
  closed h1 → is_Some (h1 !! self) →
  ∃ h2 o2,
    relus_to_not_inplace self h1 = (ok tt, h2) ∧
    h2 !! self = Some o2 ∧
    BaseModel_init model self layer_names args h =
      (ok tt,
       <[self := {| m_type := m_type o2;
                    m_attrs :=
                      <["__qualname__" := VStr (__qualname__ model)]>
                        (<["__name__" := VStr (__name__ model)]>
                           (<["layer_names" := VList layer_names]> (m_attrs o2)));
                    m_modules := m_modules o2 |}]> h2).
Proof.
  intros Hinit Hclosed Hself.
  destruct (relus_to_not_inplace_run h1 self Hclosed Hself)
    as (h2 & ms & Hrelus & Hs2 & _ & _).
  destruct (same_structure_is_Some _ _ _ Hs2 Hself) as [o2 Ho2].
  exists h2, o2. split_and!; [done..|]. unfold BaseModel_init.
  erewrite bind_ok by exact Hinit.
  erewrite bind_ok by exact Hrelus.
  erewrite bind_ok by (by apply setattr_run).
  erewrite bind_ok by (apply setattr_run; by rewrite lookup_insert_eq).
  erewrite setattr_run by (by rewrite lookup_insert_eq).
  simpl. by rewrite !insert_insert_eq.
Qed.

(** X16. After [BaseModel.__init__], [get_layer_names] returns the layer
    names the constructor was given and [_get_name] returns the name of the
    wrapped class. *)
Theorem basemodel_getters_return_what_was_given (model : @model_class Args)
    (self : loc) (layer_names : list string) (args : Args) h h1 :
  __init__ model self args h = (ok tt, h1) →
  closed h1 →
  is_Some (h1 !! self) →
  ∃ h', BaseModel_init model self layer_names args h = (ok tt, h') ∧
    get_layer_names h' self = Some (VList layer_names) ∧
    _get_name h' self = Some (VStr (__name__ model)) ∧
    getattr h' self "__qualname__" = Some (VStr (__qualname__ model)).
Proof.
  intros Hinit Hclosed Hself.
  destruct (BaseModel_init_run model self layer_names args h h1 Hinit Hclosed Hself)
    as (h2 & o2 & _ & _ & Hrun).
  eexists. split; [exact Hrun|].
  unfold get_layer_names, _get_name, getattr. rewrite lookup_insert_eq. simpl.
  split_and!.
  - rewrite !lookup_insert_ne by done. by rewrite lookup_insert_eq.
  - rewrite lookup_insert_ne by done. by rewrite lookup_insert_eq.
  - by rewrite lookup_insert_eq.
Qed.

(** One turn of the loop on a module that needs no change. *)
Lemma relu_to_not_inplace_noop m h :
  is_Some (h !! m) → inplace_off h m → relu_to_not_inplace m h = (ok tt, h).
Proof.
  intros [o Ho] Hoff. unfold relu_to_not_inplace.
  erewrite bind_ok by (unfold type_of; rewrite Ho; reflexivity).
  case_bool_decide as Hty; [|done].
  rewrite (setattr_run _ _ _ _ _ Ho). f_equal.
  rewrite (insert_id (m_attrs o)) by (by apply Hoff).
  destruct o. by apply insert_id.
Qed.

Lemma for_each_relu_noop (ms : list loc) h :
  Forall (λ l, is_Some (h !! l)) ms → Forall (inplace_off h) ms →
  for_each ms relu_to_not_inplace h = (ok tt, h).
Proof.
  induction ms as [|m ms IH]; intros Hall Hoff; simpl; [done|].
  apply Forall_cons in Hall as [Hm Hms]. apply Forall_cons in Hoff as [Hom Homs].
  erewrite bind_ok by (by apply relu_to_not_inplace_noop). by apply IH.
Qed.

(** X17. [relus_to_not_inplace] is idempotent: run on the store it left, it
    returns and leaves that store as it is. *)
Theorem relus_to_not_inplace_twice h (model : loc) :
  closed h →
  is_Some (h !! model) →
  ∃ h', relus_to_not_inplace model h = (ok tt, h') ∧
        relus_to_not_inplace model h' = (ok tt, h').
Proof.
  intros Hclosed Hmodel.
  destruct (relus_to_not_inplace_run h model Hclosed Hmodel)
    as (h' & ms & Hrun & Hs & Hms & Hoff).
  exists h'. split; [done|]. unfold relus_to_not_inplace. rewrite Hms.
  apply for_each_relu_noop; [|done].
  unfold modules in Hms.
  destruct (named_modules _ h' model ∅) as [r|] eqn:Hr; [|done].
  injection Hms as <-. by eapply named_modules_allocated.
Qed.


Lemma relu_to_not_inplace_frame m h :
  is_Some (h !! m) →
  ∃ h', relu_to_not_inplace m h = (ok tt, h') ∧
    ∀ l, option_Forall2 only_inplace_differs (h !! l) (h' !! l).
Proof.
  intros [o Ho]. unfold relu_to_not_inplace.
  erewrite bind_ok by (unfold type_of; rewrite Ho; reflexivity).
  assert (Hrefl : ∀ l, option_Forall2 only_inplace_differs (h !! l) (h !! l)).
  { intros l. destruct (h !! l); by constructor. }
  case_bool_decide as Hty; [|by exists h].
  rewrite (setattr_run _ _ _ _ _ Ho). eexists. split; [done|]. intros l.
  destruct (decide (l = m)) as [->|Hne].
  - rewrite lookup_insert_eq, Ho. constructor. split_and!; simpl; try done.
    intros k Hk. by rewrite lookup_insert_ne.
  - rewrite lookup_insert_ne by done. apply Hrefl.
Qed.

Lemma for_each_relu_frame (ms : list loc) h :
  Forall (λ l, is_Some (h !! l)) ms →
  ∃ h', for_each ms relu_to_not_inplace h = (ok tt, h') ∧
    ∀ l, option_Forall2 only_inplace_differs (h !! l) (h' !! l).
Proof.
  revert h. induction ms as [|m ms IH]; intros h Hall; simpl.
  - exists h. split; [done|]. intros l. destruct (h !! l); by constructor.
  - apply Forall_cons in Hall as [Hm Hms].
    destruct (relu_to_not_inplace_frame m h Hm) as (h1 & Hrun & H1).
    destruct (IH h1) as (h2 & Hloop & H2).
    { eapply Forall_impl; [exact Hms|]. intros l [o Ho]. simpl.
      specialize (H1 l). rewrite Ho in H1. inversion H1. by eexists. }
    exists h2. split; [by erewrite bind_ok by exact Hrun|]. intros l.
    specialize (H1 l). specialize (H2 l).
    destruct H1 as [o o1 (Ht1 & Hm1 & Ha1 & He1)|]; [|done].
    inversion H2 as [? o2 (Ht2 & Hm2 & Ha2 & He2)|]; subst. constructor.
    split_and!; [congruence | congruence | |].
    + intros k Hk. rewrite Ha2, Ha1 by done. done.
    + intros Hty. rewrite <- (He1 Hty). apply He2. by rewrite (He1 Hty).
Qed.

(** X18. [relus_to_not_inplace] writes nothing but the attribute [inplace]
    of modules of the five listed classes: every object keeps its class and
    its children, every attribute other than [inplace] keeps its value, an
    object of any other class (a subclass of [ReLU] too) is left exactly as
    it is, and no object appears or disappears. *)
Theorem relus_write_only_inplace h (model : loc) :
  closed h →
  is_Some (h !! model) →
  ∃ h', relus_to_not_inplace model h = (ok tt, h') ∧
    (∀ l, h !! l = None → h' !! l = None) ∧
    ∀ l o, h !! l = Some o →
      ∃ o', h' !! l = Some o' ∧
        m_type o' = m_type o ∧
        m_modules o' = m_modules o ∧
        (∀ k, k ≠ "inplace" → m_attrs o' !! k = m_attrs o !! k) ∧
        (m_type o ∉ _relu_classes → o' = o).
Proof.
  intros Hclosed Hmodel.
  destruct (modules_total h model Hclosed Hmodel) as (ms & Hms & Hall).
  destruct (for_each_relu_frame ms h Hall) as (h' & Hloop & Hframe).
  exists h'. unfold relus_to_not_inplace. rewrite Hms. split; [done|]. split.
  - intros l Hl. specialize (Hframe l). rewrite Hl in Hframe. by inversion Hframe.
  - intros l o Hl. specialize (Hframe l). rewrite Hl in Hframe.
    inversion Hframe as [? o' Hd|]; subst. by exists o'.
Qed.

End claims_modules_more.

Lemma small_net_closed : closed (Reference.small_net 1%positive tt ∅).2.
Proof.
  unfold closed, Reference.small_net. simpl.
  repeat (apply map_Forall_insert_2; [repeat constructor; by eexists|]).
  apply map_Forall_empty.
Defined.

Lemma basemodel_getters_return_what_was_given_witness :
  __init__ Reference.small_net_class 1%positive tt ∅
    = (ok tt, (Reference.small_net 1%positive tt ∅).2) ∧
  closed (Reference.small_net 1%positive tt ∅).2 ∧
  is_Some ((Reference.small_net 1%positive tt ∅).2 !! 1%positive) ∧
  ∃ h', BaseModel_init Reference.small_net_class 1%positive ["act1"; "body"] tt ∅
          = (ok tt, h') ∧
    get_layer_names h' 1%positive = Some (VList ["act1"; "body"]) ∧
    _get_name h' 1%positive = Some (VStr "Net") ∧
    getattr h' 1%positive "__qualname__" = Some (VStr "Net").
Proof.
  assert (Hself : is_Some ((Reference.small_net 1%positive tt ∅).2 !! 1%positive))
    by (by eexists).
  split; [reflexivity|]. split; [exact small_net_closed|]. split; [exact Hself|].
  exact (basemodel_getters_return_what_was_given Reference.small_net_class
           1%positive ["act1"; "body"] tt ∅ _ eq_refl small_net_closed Hself).
Defined.

Lemma relus_to_not_inplace_twice_witness :
  closed (Reference.small_net 1%positive tt ∅).2 ∧
  is_Some ((Reference.small_net 1%positive tt ∅).2 !! 1%positive) ∧
  ∃ h', relus_to_not_inplace 1%positive (Reference.small_net 1%positive tt ∅).2
          = (ok tt, h') ∧
        relus_to_not_inplace 1%positive h' = (ok tt, h').
Proof.
  assert (Hself : is_Some ((Reference.small_net 1%positive tt ∅).2 !! 1%positive))
    by (by eexists).
  split; [exact small_net_closed|]. split; [exact Hself|].
  exact (relus_to_not_inplace_twice _ 1%positive small_net_closed Hself).
Defined.

Lemma relus_write_only_inplace_witness :
  closed (Reference.small_net 1%positive tt ∅).2 ∧
  is_Some ((Reference.small_net 1%positive tt ∅).2 !! 1%positive) ∧
  ∃ h', relus_to_not_inplace 1%positive (Reference.small_net 1%positive tt ∅).2
          = (ok tt, h') ∧
    (∀ l, (Reference.small_net 1%positive tt ∅).2 !! l = None → h' !! l = None) ∧
    ∀ l o, (Reference.small_net 1%positive tt ∅).2 !! l = Some o →
      ∃ o', h' !! l = Some o' ∧
        m_type o' = m_type o ∧
        m_modules o' = m_modules o ∧
        (∀ k, k ≠ "inplace" → m_attrs o' !! k = m_attrs o !! k) ∧
        (m_type o ∉ _relu_classes → o' = o).
Proof.
  assert (Hself : is_Some ((Reference.small_net 1%positive tt ∅).2 !! 1%positive))
    by (by eexists).
  split; [exact small_net_closed|]. split; [exact Hself|].
  exact (relus_write_only_inplace _ 1%positive small_net_closed Hself).
Defined.

(** ** A batch of one image *)

Section claims_batch_of_one.
Context `{Random} `{Scalars} `{!Functional} `{!Libm} `{!Images}.

Lemma as_3d_unsqueeze0 (x : Tensor) : dim x = 3%nat → _as_3d (unsqueeze0 x) = x.
Proof.
  intros Hd. destruct x as [sh dt dev e]. unfold dim in Hd. simpl in Hd.
  unfold _as_3d, dim. simpl. rewrite Hd. reflexivity.
Qed.

Lemma as_4d_unsqueeze0 (x : Tensor) :
  dim x = 3%nat → _as_4d (unsqueeze0 x) = _as_4d x.
Proof.
  intros Hd. unfold _as_4d. rewrite (bool_decide_true _ Hd).
  unfold dim in *. simpl. rewrite Hd. reflexivity.
Qed.

(** X19. The four transforms take a batch of one image for the image: for
    an image [x] of rank 3, a call on [x.unsqueeze(0)] does what the call on
    [x] does, and returns what it returns (a tensor of rank 3 when the call
    on [x] returns one). *)
Theorem batch_of_one_is_the_image (x : Tensor) (w : World) :
  dim x = 3%nat →
  (∀ self, RandomScale_call self (unsqueeze0 x) w = RandomScale_call self x w) ∧
  (∀ self, RandomRotate_call self (unsqueeze0 x) w = RandomRotate_call self x w) ∧
  (∀ self, RandomAlpha_call self (unsqueeze0 x) w = RandomAlpha_call self x w) ∧
  (∀ self, SpatialJitter_call self (unsqueeze0 x) w = SpatialJitter_call self x w).
Proof.
  intros Hd. split_and!; intros self.
  - unfold RandomScale_call. by rewrite as_4d_unsqueeze0.
  - unfold RandomRotate_call. by rewrite as_4d_unsqueeze0.
  - unfold RandomAlpha_call.
    by rewrite as_3d_unsqueeze0, (as_3d_of_3d x) by done.
  - unfold SpatialJitter_call.
    by rewrite as_3d_unsqueeze0, (as_3d_of_3d x) by done.
Qed.

End claims_batch_of_one.

Lemma batch_of_one_is_the_image_witness :
  dim (Reference.ramp [3; 4; 5]%nat) = 3%nat ∧
  SpatialJitter_call Reference.jitter (unsqueeze0 (Reference.ramp [3; 4; 5]%nat))
    Reference.world
  = SpatialJitter_call Reference.jitter (Reference.ramp [3; 4; 5]%nat) Reference.world.
Proof.
  split; [reflexivity|].
  apply (batch_of_one_is_the_image (Reference.ramp [3; 4; 5]%nat) Reference.world).
  reflexivity.
Defined.

(** ** Running the definitions *)

Example lower_units : lower "DeGrees" = "degrees" ∧ lower "rad" = "rad".
Proof. split; reflexivity. Qed.

(** Seeded with 4, the reference generator draws index 1 of three. *)
Example rand_select_runs :
  (_rand_select [10; 20; 30] (Some 4) (0 : rng)).1 = ok 20 ∧
  (_rand_select [10; 20; 30] (Some 4) (99 : rng)).1 = ok 20 ∧
  (_rand_select ([] : list Z) None (0 : rng)).1 = raise ValueError.
Proof. split_and!; reflexivity. Qed.

(** The composition of the example world: a jitter by 2 pixels, a rotation
    and an alpha composite take a 4 x 6 x 7 image to a 3 x 4 x 5 image, and
    a composition that holds itself runs out of nested calls. *)
Example compose_runs :
  match (call 3 14%positive (Reference.ramp [4; 6; 7]%nat) Reference.world).1 with
  | inr y => t_shape y = [3; 4; 5]%nat
  | inl _ => False
  end ∧
  (call 5 1%positive (Reference.ramp [4; 6; 7]%nat)
     (set_objects {[ 1%positive := a_Compose {| Compose._transforms := [1%positive] |} ]}
        Reference.world)).1 = raise RecursionError.
Proof. split; vm_compute; reflexivity. Qed.

(** [storer] on a state without the key, on a state that holds a
    dictionary, and on a state that holds something else. *)
Example storer_runs :
  (storer "layers" "conv1" 7%nat (∅ : gmap string (slot string nat))).2
    = {[ "layers" := a_dict {[ "conv1" := 7%nat ]} ]} ∧
  (storer "layers" "conv1" 7%nat {[ "layers" := a_dict {[ "fc" := 1%nat ]} ]}).2
    = {[ "layers" := a_dict {[ "conv1" := 7%nat; "fc" := 1%nat ]} ]} ∧
  (storer "layers" "conv1" 7%nat {[ "layers" := not_a_dict 3%nat ]}).2
    = {[ "layers" := a_dict {[ "conv1" := 7%nat ]} ]}.
Proof. split_and!; reflexivity. Qed.
